(** * Autonomous snake: the path search and the movement rules of [app.py]

    A shallow embedding of the class [SnakeAI] of [src/app.py]: the
    Manhattan heuristic, the best-first search [astar] over the pixel grid,
    the one-step movement [move], the food generator and the collision
    test.  Coordinates are the pixel coordinates the program uses
    (multiples of [GRID_SIZE]); the float components of [pygame.Vector2]
    only ever hold small integers there, so a cell is a pair of [Z]. *)

From Stdlib Require Import ZArith Lia List.
From stdpp Require Import base decidable option list gmap fin_maps.

Local Open Scope Z_scope.

(** ** Screen settings (module constants of app.py) *)

Definition WIDTH : Z := 640.
Definition HEIGHT : Z := 480.
Definition GRID_SIZE : Z := 20.

(** A grid position, as the tuples [(x, y)] of the source. *)
Abbreviation cell := (Z * Z)%type.

(** ** Errors and the result monad

    The Python code can raise; the embedding returns the exception as data.
    [OutOfFuel] and [OutOfDraws] are the two ways a loop of the model can
    stop before the Python loop would: the bounded iteration of a [while]
    ran out, or the finite supply of random numbers did. *)

Inductive error : Type :=
| KeyError
| IndexError
| ValueError
| NameError
| NotAxisAligned
| OutOfFuel
| OutOfDraws.

Inductive result (A : Type) : Type :=
| Ok (a : A)
| Err (e : error).
Arguments Ok {A} a.
Arguments Err {A} e.

#[global] Instance result_bind : MBind result := fun A B k r =>
  match r with
  | Ok a => k a
  | Err e => Err e
  end.

Definition of_option {A : Type} (e : error) (o : option A) : result A :=
  match o with
  | Some a => Ok a
  | None => Err e
  end.

Definition of_result {A : Type} (r : result A) : option A :=
  match r with
  | Ok a => Some a
  | Err _ => None
  end.

(** ** heuristic *)

Definition heuristic (a b : cell) : Z :=
  Z.abs (b.1 - a.1) + Z.abs (b.2 - a.2).

(** ** The frontier: [heapq] on tuples [(priority, cell)]

    [heapq] is Python's library heap.  Its contract is what the search
    relies on: [heappush] adds an item, [heappop] removes and returns the
    smallest item under the ordering of the items.  The items are tuples
    [(priority, (x, y))], which Python compares lexicographically.  The
    heap is kept as the list of its items in the order they were pushed;
    the smallest item is the same whatever the layout of the heap (lemma
    [heappop_layout]). *)

Abbreviation entry := (Z * cell)%type.

Definition cell_ltb (a b : cell) : bool :=
  (a.1 <? b.1) || ((a.1 =? b.1) && (a.2 <? b.2)).

Definition entry_ltb (a b : entry) : bool :=
  (a.1 <? b.1) || ((a.1 =? b.1) && cell_ltb a.2 b.2).

Definition heappush (heap : list entry) (item : entry) : list entry :=
  heap ++ [item].

Fixpoint smallest (best : entry) (heap : list entry) : entry :=
  match heap with
  | [] => best
  | item :: rest => smallest (if entry_ltb item best then item else best) rest
  end.

Fixpoint remove_item (item : entry) (heap : list entry) : list entry :=
  match heap with
  | [] => []
  | x :: rest => if decide (x = item) then rest else x :: remove_item item rest
  end.

Definition heappop (heap : list entry) : option (entry * list entry) :=
  match heap with
  | [] => None
  | x :: rest => let m := smallest x rest in Some (m, remove_item m heap)
  end.

(** ** astar *)

(** The local variables of [astar] that the loop updates. *)
Record search : Type := Search {
  open_list : list entry;
  came_from : gmap cell (option cell);
  cost_so_far : gmap cell Z
}.

Definition DIRS : list cell := [(1, 0); (-1, 0); (0, 1); (0, -1)].

(** The bounds test, written out twice in the source (lines 107-108 and
    184-185). *)
Definition outside (c : cell) : bool :=
  (c.1 <? 0) || (c.1 >=? WIDTH) || (c.2 <? 0) || (c.2 >=? HEIGHT).

(** The test of lines 107-109: the successor is dropped. *)
Definition blocked (position : list cell) (next : cell) : bool :=
  outside next || bool_decide (next ∈ position).

(** Lines 113-117, for a successor that passed the test. *)
Definition relax (end_ current next : cell) (new_cost : Z) (st : search) : search :=
  let improve :=
    match cost_so_far st !! next with
    | None => true
    | Some c => new_cost <? c
    end in
  if improve then
    {| open_list := heappush (open_list st) (new_cost + heuristic next end_, next);
       came_from := <[next := Some current]> (came_from st);
       cost_so_far := <[next := new_cost]> (cost_so_far st) |}
  else st.

(** One round of the [for dx, dy] loop (lines 106-117). *)
Definition visit (position : list cell) (end_ current : cell)
    (st : search) (d : cell) : result search :=
  let next := (current.1 + d.1 * GRID_SIZE, current.2 + d.2 * GRID_SIZE) in
  if blocked position next then Ok st
  else
    c ← of_option KeyError (cost_so_far st !! current);
    Ok (relax end_ current next (c + 1) st).

Fixpoint for_each (position : list cell) (end_ current : cell)
    (ds : list cell) (st : search) : result search :=
  match ds with
  | [] => Ok st
  | d :: ds' =>
      st' ← visit position end_ current st d;
      for_each position end_ current ds' st'
  end.

(** One round of the [while open_list] loop (lines 100-117). *)
Inductive round : Type :=
| Exhausted                               (* open_list is empty: the loop ends *)
| Reached (current : cell) (st : search)  (* current == end: break *)
| Expanded (current : cell) (st : search).

Definition astar_round (position : list cell) (end_ : cell) (st : search)
    : result round :=
  match heappop (open_list st) with
  | None => Ok Exhausted
  | Some ((_, current), rest) =>
      let st1 := {| open_list := rest;
                    came_from := came_from st;
                    cost_so_far := cost_so_far st |} in
      if decide (current = end_) then Ok (Reached current st1)
      else
        st2 ← for_each position end_ current DIRS st1;
        Ok (Expanded current st2)
  end.

(** The [while] loop; [current] is [None] as long as the Python variable is
    unbound. *)
Fixpoint astar_loop (fuel : nat) (position : list cell) (end_ : cell)
    (st : search) (current : option cell) : result (search * option cell) :=
  match fuel with
  | O => Err OutOfFuel
  | S fuel' =>
      r ← astar_round position end_ st;
      match r with
      | Exhausted => Ok (st, current)
      | Reached c st' => Ok (st', Some c)
      | Expanded c st' => astar_loop fuel' position end_ st' (Some c)
      end
  end.

(** Lines 123-125: the cells appended to [path], in the order of the
    appends. *)
Fixpoint walk_back (fuel : nat) (came : gmap cell (option cell))
    (start current : cell) : result (list cell) :=
  if decide (current = start) then Ok []
  else
    match fuel with
    | O => Err OutOfFuel
    | S fuel' =>
        match came !! current with
        | Some (Some prev) =>
            rest ← walk_back fuel' came start prev;
            Ok (current :: rest)
        | _ => Err KeyError
        end
    end.

(** Lines 93-98. *)
Definition astar_init (start end_ : cell) : search :=
  {| open_list := heappush [] (heuristic start end_, start);
     came_from := <[start := None]> ∅;
     cost_so_far := <[start := 0]> ∅ |}.

(** The number of grid cells, and a bound on the rounds of the loop. *)
Definition CELLS : Z := (WIDTH / GRID_SIZE) * (HEIGHT / GRID_SIZE).
Definition astar_fuel : nat := Z.to_nat ((CELLS + 1) * (CELLS + 1) + 2).

Definition astar (position : list cell) (start end_ : cell)
    : result (option (list cell)) :=
  '(st, current) ← astar_loop astar_fuel position end_ (astar_init start end_) None;
  match came_from st !! end_ with
  | None => Ok None
  | Some _ =>
      current ← of_option NameError current;
      appended ← walk_back (size (came_from st)) (came_from st) start current;
      Ok (Some (rev (appended ++ [start])))
  end.

(** The cells expanded (popped, not the end, successors generated) in the
    first [n] rounds, in order. *)
Fixpoint expansions (n : nat) (position : list cell) (end_ : cell)
    (st : search) : list cell :=
  match n with
  | O => []
  | S n' =>
      match astar_round position end_ st with
      | Ok (Expanded c st') => c :: expansions n' position end_ st'
      | _ => []
      end
  end.

(** ** The snake *)

(** The attributes of a [SnakeAI] object once [__init__] has returned
    ([food] is a tuple from then on). *)
Record snake : Type := Snake {
  position : list cell;
  direction : cell;
  length : Z;
  food : cell;
  score : Z
}.

(** [random.randint(a, b)]: an integer of [a..b], here chosen by the next
    number [r] of the supply of random numbers. *)
Definition randint (a b r : Z) : Z := a + r mod (b - a + 1).

(** [generate_food]: the [while True] loop draws two numbers a round; it
    goes on as long as the cell drawn is on the snake. *)
Fixpoint generate_food (position : list cell) (draws : list Z)
    : result (cell * list Z) :=
  match draws with
  | r1 :: r2 :: rest =>
      let x := randint 0 (WIDTH / GRID_SIZE - 1) r1 * GRID_SIZE in
      let y := randint 0 (HEIGHT / GRID_SIZE - 1) r2 * GRID_SIZE in
      let new_food := (x, y) in
      if bool_decide (new_food ∉ position) then Ok (new_food, rest)
      else generate_food position rest
  | _ => Err OutOfDraws
  end.

(** [__init__] *)
Definition init (draws : list Z) : result (snake * list Z) :=
  let position := [(5 * GRID_SIZE, 5 * GRID_SIZE)] in
  '(food, draws') ← generate_food position draws;
  Ok ({| position := position; direction := (1, 0); length := 1;
         food := food; score := 0 |}, draws').

(** [Vector2.normalize()].  It raises [ValueError] on the zero vector.  On
    a vector along an axis the result is exact: the signs of the
    components.  Other vectors need floating point and are outside the
    model; [move] never normalizes one (lemma [move_no_exception]). *)
Definition normalize (v : cell) : result cell :=
  if decide (v = (0, 0)) then Err ValueError
  else if decide (v.1 = 0 ∨ v.2 = 0) then Ok (Z.sgn v.1, Z.sgn v.2)
  else Err NotAxisAligned.

(** [move] *)
Definition move (s : snake) (draws : list Z) : result (snake * list Z) :=
  start ← of_option IndexError (head (position s));
  path ← astar (position s) start (food s);
  match path with
  | None => Ok (s, draws)
  | Some path =>
      if (Datatypes.length path <? 2)%nat then Ok (s, draws)
      else
        next_pos ← of_option IndexError (path !! 1%nat);
        dir ← normalize (next_pos.1 - start.1, next_pos.2 - start.2);
        let inserted := next_pos :: position s in
        if decide (next_pos = food s) then
          '(new_food, draws') ← generate_food inserted draws;
          Ok ({| position := inserted; direction := dir;
                 length := length s + 1; food := new_food;
                 score := score s + 1 |}, draws')
        else
          Ok ({| position := removelast inserted; direction := dir;
                 length := length s; food := food s;
                 score := score s |}, draws)
  end.

(** [check_collision] *)
Definition check_collision (s : snake) : result bool :=
  head ← of_option IndexError (head (position s));
  if outside head then Ok true
  else if bool_decide (head ∈ tail (position s)) then Ok true
  else Ok false.

(** The states a session goes through: the one [__init__] builds, and
    those [move] makes from them. *)
Inductive reachable : snake -> Prop :=
| reachable_init draws s draws' :
    init draws = Ok (s, draws') -> reachable s
| reachable_move s draws s' draws' :
    reachable s -> move s draws = Ok (s', draws') -> reachable s'.


(** [n] calls of [move] in a row, as the game loop makes them. *)
Fixpoint moves (n : nat) (s : snake) (draws : list Z)
    : result (snake * list Z) :=
  match n with
  | O => Ok (s, draws)
  | S n' => '(s', draws') ← move s draws; moves n' s' draws'
  end.

(** ** Vocabulary of the statements *)

(** Python's ordering of the tuples [(priority, (x, y))]. *)
Definition entry_lt (a b : entry) : Prop :=
  a.1 < b.1 ∨
  (a.1 = b.1 ∧ (a.2.1 < b.2.1 ∨ (a.2.1 = b.2.1 ∧ a.2.2 < b.2.2))).

(** Two cells one grid step apart along one axis. *)
Definition orthogonal (a b : cell) : Prop :=
  (b.2 = a.2 ∧ Z.abs (b.1 - a.1) = GRID_SIZE) ∨
  (b.1 = a.1 ∧ Z.abs (b.2 - a.2) = GRID_SIZE).

(** Every consecutive pair of the list is one step apart. *)
Fixpoint linked (path : list cell) : Prop :=
  match path with
  | a :: (b :: _) as rest => orthogonal a b ∧ linked rest
  | _ => True
  end.

(** A route from [start] to [end_] that the search may take: the cells
    after the first pass the test of lines 107-109. *)
Definition route (position : list cell) (start end_ : cell)
    (path : list cell) : Prop :=
  head path = Some start ∧ last path = Some end_ ∧ linked path ∧
  ∀ c, c ∈ tail path → blocked position c = false.

(** The cells [start] can reach by whole grid steps. *)
Definition on_lattice (start c : cell) : Prop :=
  ∃ i j : Z, c = (start.1 + i * GRID_SIZE, start.2 + j * GRID_SIZE).

(** What holds of the dictionaries and the heap of [astar] every time the
    [while] test is evaluated. *)
Record search_inv (position : list cell) (start : cell) (st : search)
    : Prop := {
  inv_came_start : came_from st !! start = Some None;
  inv_cost_start : cost_so_far st !! start = Some 0;
  inv_keys : ∀ c, came_from st !! c = None ↔ cost_so_far st !! c = None;
  inv_link : ∀ c p, came_from st !! c = Some (Some p) →
    blocked position c = false ∧ orthogonal p c ∧
    ∃ vp vc, cost_so_far st !! p = Some vp ∧
             cost_so_far st !! c = Some vc ∧ vp + 1 ≤ vc;
  inv_root : ∀ c, came_from st !! c = Some None → c = start;
  inv_cost : ∀ c v, cost_so_far st !! c = Some v →
    0 ≤ v < Z.of_nat (size (cost_so_far st));
  inv_open : ∀ e, e ∈ open_list st → is_Some (cost_so_far st !! e.2);
  inv_lattice : ∀ c, is_Some (cost_so_far st !! c) → on_lattice start c
}.

(** As long as the loop runs, an end cell that was discovered is still on
    the heap. *)
Definition end_pending (end_ : cell) (st : search) : Prop :=
  is_Some (came_from st !! end_) → ∃ p, (p, end_) ∈ open_list st.

(** The cells of the window that [start] can reach by whole grid steps. *)
Definition lattice_cells (start : cell) : list cell :=
  x ← (λ i, start.1 `mod` GRID_SIZE + i * GRID_SIZE) <$> seqZ 0 (WIDTH / GRID_SIZE);
  y ← (λ j, start.2 `mod` GRID_SIZE + j * GRID_SIZE) <$> seqZ 0 (HEIGHT / GRID_SIZE);
  [(x, y)].

(** The sum of the recorded costs. *)
Definition total_cost (m : gmap cell Z) : Z :=
  map_fold (λ _ v acc, v + acc) 0 m.

(** The quantity that every round of the [while] loop lowers. *)
Definition rounds_left (st : search) : Z :=
  Z.of_nat (Datatypes.length (open_list st)) +
  (CELLS + 1 - Z.of_nat (size (cost_so_far st))) * (CELLS + 1) +
  total_cost (cost_so_far st).

(** A cost that justifies a push: the cell has no recorded cost yet, or a
    strictly higher one. *)
Definition cheaper (new_cost : Z) (known : option Z) : Prop :=
  match known with
  | None => True
  | Some old => new_cost < old
  end.

(** What the rounds of the [for] loop may do while a cell of cost [v] is
    expanded: a recorded cost changes only to [v + 1] and only when that is
    cheaper, and every new heap item records such a change. *)
Definition round_effect (end_ : cell) (v : Z) (st st' : search) : Prop :=
  (∀ c, cost_so_far st' !! c = cost_so_far st !! c ∨
        (cost_so_far st' !! c = Some (v + 1) ∧
         cheaper (v + 1) (cost_so_far st !! c))) ∧
  (∀ e, e ∈ open_list st' →
        e ∈ open_list st ∨
        (e.1 = v + 1 + heuristic e.2 end_ ∧
         cost_so_far st' !! e.2 = Some (v + 1) ∧
         cheaper (v + 1) (cost_so_far st !! e.2))).

(** The head gets to the food in this call of [move]: the second cell of
    the path found is the food. *)
Definition reaches_food (s : snake) : Prop :=
  ∃ h path, head (position s) = Some h ∧
    astar (position s) h (food s) = Ok (Some path) ∧
    path !! 1%nat = Some (food s).


(** The class invariant of claim C9. *)
Definition snake_inv (s : snake) : Prop :=
  position s ≠ [] ∧ length s = Z.of_nat (Datatypes.length (position s)).

(** ** draw and main: the rest of app.py *)

(** Colors (module constants of app.py). *)
Definition BLACK : Z * Z * Z := (0, 0, 0).
Definition GREEN : Z * Z * Z := (0, 255, 0).
Definition RED : Z * Z * Z := (255, 0, 0).
Definition WHITE : Z * Z * Z := (255, 255, 255).

(** A call [pygame.draw.rect(screen, color, (x, y, w, h))], as data. *)
Record rect_call : Type := RectCall {
  rect_color : Z * Z * Z;
  rect_x : Z;
  rect_y : Z;
  rect_w : Z;
  rect_h : Z
}.

(** [draw]: the calls of [pygame.draw.rect] it makes, in order. *)
Definition draw (s : snake) : list rect_call :=
  ((λ segment, RectCall GREEN segment.1 segment.2 GRID_SIZE GRID_SIZE)
     <$> position s)
  ++ [RectCall RED (food s).1 (food s).2 GRID_SIZE GRID_SIZE].

(** The events of [pygame.event.get()], by what [main] asks of them. *)
Inductive event : Type :=
| QUIT
| OTHER.

(** Lines 213-215: the [for event] loop. *)
Definition poll (events : list event) (game_over : bool) : bool :=
  foldl (λ over e, match e with QUIT => true | OTHER => over end)
        game_over events.

(** What one pass of the loop of [main] shows: the rectangles of [draw]
    and the score of the text. *)
Record frame : Type := Frame {
  frame_rects : list rect_call;
  frame_score : Z
}.

(** The [while not game_over] loop of [main] (lines 212-238), one pass for
    every list of events the environment supplies; when the supply ends the
    loop is still running and the flag is [false].  The result is what was
    shown, the snake and [game_over].  The calls that only paint or wait
    ([SCREEN.fill], [blit], [flip], [clock.tick]) leave the snake alone and
    are kept as the frame they show. *)
Fixpoint main_loop (inputs : list (list event)) (s : snake) (draws : list Z)
    : result (list frame * snake * bool) :=
  match inputs with
  | [] => Ok ([], s, false)
  | events :: inputs' =>
      let game_over := poll events false in
      '(s', draws') ← move s draws;
      hit ← check_collision s';
      let game_over := if hit : bool then true else game_over in
      let shown := Frame (draw s') (score s') in
      if game_over then Ok ([shown], s', true)
      else
        '(frames, final, over) ← main_loop inputs' s' draws';
        Ok (shown :: frames, final, over)
  end.

(** [main] *)
Definition main (inputs : list (list event)) (draws : list Z)
    : result (list frame * snake * bool) :=
  '(s, draws') ← init draws;
  main_loop inputs s draws'.

(** ** Vocabulary of the further properties *)

(** A cell whose coordinates are multiples of [GRID_SIZE]. *)
Definition aligned (c : cell) : Prop :=
  c.1 `mod` GRID_SIZE = 0 ∧ c.2 `mod` GRID_SIZE = 0.

(** The cell that two random numbers give in [generate_food]. *)
Definition drawn_cell (r1 r2 : Z) : cell :=
  (randint 0 (WIDTH / GRID_SIZE - 1) r1 * GRID_SIZE,
   randint 0 (HEIGHT / GRID_SIZE - 1) r2 * GRID_SIZE).

(** The cells that a supply of random numbers gives, two numbers a cell. *)
Fixpoint drawn_cells (draws : list Z) : list cell :=
  match draws with
  | r1 :: r2 :: rest => drawn_cell r1 r2 :: drawn_cells rest
  | _ => []
  end.

(** What holds of the snake and the food in every state of a session. *)
Record session_inv (s : snake) : Prop := {
  ses_nodup : NoDup (position s);
  ses_linked : linked (position s);
  ses_inside : ∀ c, c ∈ position s → outside c = false ∧ aligned c;
  ses_food : (food s ∉ position s) ∧ outside (food s) = false ∧
             aligned (food s);
  ses_length : length s = score s + 1 ∧
               Z.of_nat (Datatypes.length (position s)) = score s + 1;
  ses_score : 0 ≤ score s;
  ses_direction : direction s ∈ DIRS
}.

(** Every recorded cell still has an item on the heap, or all its open
    successors are recorded. *)
Definition frontier_closed (position : list cell) (st : search) : Prop :=
  ∀ c, is_Some (cost_so_far st !! c) →
    (∃ p, (p, c) ∈ open_list st) ∨
    ∀ d, d ∈ DIRS →
      blocked position (c.1 + d.1 * GRID_SIZE, c.2 + d.2 * GRID_SIZE) = false →
      is_Some (cost_so_far st !! (c.1 + d.1 * GRID_SIZE, c.2 + d.2 * GRID_SIZE)).

(** The same with one cell excused: the cell that is being expanded. *)
Definition closed_but (position : list cell) (cur : cell) (st : search)
    : Prop :=
  ∀ c, is_Some (cost_so_far st !! c) →
    c = cur ∨ (∃ p, (p, c) ∈ open_list st) ∨
    ∀ d, d ∈ DIRS →
      blocked position (c.1 + d.1 * GRID_SIZE, c.2 + d.2 * GRID_SIZE) = false →
      is_Some (cost_so_far st !! (c.1 + d.1 * GRID_SIZE, c.2 + d.2 * GRID_SIZE)).

(** The cells between [start] and [end_]: those on a shortest way from
    one to the other over the grid. *)
Definition in_box (start end_ c : cell) : Prop :=
  on_lattice start c ∧
  heuristic start c + heuristic c end_ = heuristic start end_.

(** The heap and the dictionaries after [L] expansions, when nothing
    stands between [start] and [end_]: the least priority on the heap is
    that of a cell [L] steps from [start] on a shortest way. *)
Definition level_inv (start end_ : cell) (L : Z) (st : search) : Prop :=
  (∃ c, (heuristic start end_ - (GRID_SIZE - 1) * L, c) ∈ open_list st) ∧
  (∀ e, e ∈ open_list st →
     heuristic start end_ - (GRID_SIZE - 1) * L ≤ e.1 ∧
     (e.1 = heuristic start end_ - (GRID_SIZE - 1) * L →
      in_box start end_ e.2 ∧
      heuristic e.2 end_ = heuristic start end_ - GRID_SIZE * L ∧
      cost_so_far st !! e.2 = Some L)) ∧
  (∀ c, is_Some (cost_so_far st !! c) →
     heuristic start end_ - GRID_SIZE * L ≤ heuristic c end_).

(** The same in the middle of the expansion of [cur], a cell of cost [L]. *)
Definition level_mid (start end_ cur : cell) (L : Z) (st : search) : Prop :=
  cost_so_far st !! cur = Some L ∧
  (∀ e, e ∈ open_list st →
     heuristic start end_ - (GRID_SIZE - 1) * (L + 1) ≤ e.1 ∧
     (e.1 = heuristic start end_ - (GRID_SIZE - 1) * (L + 1) →
      in_box start end_ e.2 ∧
      heuristic e.2 end_ = heuristic start end_ - GRID_SIZE * (L + 1) ∧
      cost_so_far st !! e.2 = Some (L + 1))) ∧
  (∀ c, is_Some (cost_so_far st !! c) →
     heuristic start end_ - GRID_SIZE * (L + 1) ≤ heuristic c end_ ∧
     (heuristic c end_ = heuristic start end_ - GRID_SIZE * (L + 1) →
      (heuristic start end_ - (GRID_SIZE - 1) * (L + 1), c) ∈ open_list st)).

(** Two rectangles that share a pixel. *)
Definition overlap (a b : rect_call) : Prop :=
  rect_x a < rect_x b + rect_w b ∧ rect_x b < rect_x a + rect_w a ∧
  rect_y a < rect_y b + rect_h b ∧ rect_y b < rect_y a + rect_h a.

(** A rectangle inside the window. *)
Definition on_screen (r : rect_call) : Prop :=
  0 ≤ rect_x r ∧ rect_x r + rect_w r ≤ WIDTH ∧
  0 ≤ rect_y r ∧ rect_y r + rect_h r ≤ HEIGHT.

(** * Properties *)

(** ** The frontier *)

Section Frontier.

Lemma entry_ltb_lt a b : entry_ltb a b = true ↔ entry_lt a b.
Proof.
  unfold entry_ltb, cell_ltb, entry_lt.
  rewrite !orb_true_iff, !andb_true_iff, !orb_true_iff, !andb_true_iff.
  rewrite !Z.ltb_lt, !Z.eqb_eq. tauto.
Qed.

Lemma smallest_elem best heap : smallest best heap ∈ best :: heap.
Proof.
  revert best. induction heap as [|x heap IH]; intros best; simpl.
  - apply list_elem_of_here.
  - destruct (entry_ltb x best).
    + apply list_elem_of_further, IH.
    + specialize (IH best). apply elem_of_cons in IH as [->|IH].
      * apply list_elem_of_here.
      * do 2 apply list_elem_of_further. exact IH.
Qed.

Lemma entry_lt_trans_not e x b :
  entry_lt x b → ¬ entry_lt e b → ¬ entry_lt e x.
Proof. unfold entry_lt. lia. Qed.

Lemma smallest_below e heap best :
  ¬ entry_lt e best → ¬ entry_lt e (smallest best heap).
Proof.
  revert best. induction heap as [|x heap IH]; intros best Hb; simpl; [done|].
  destruct (entry_ltb x best) eqn:Hxb; [|by apply IH].
  apply entry_ltb_lt in Hxb. eapply IH, entry_lt_trans_not; eauto.
Qed.

Lemma smallest_least best heap e :
  e ∈ best :: heap → ¬ entry_lt e (smallest best heap).
Proof.
  revert best. induction heap as [|x heap IH]; intros best; simpl.
  - intros ->%list_elem_of_singleton. unfold entry_lt. lia.
  - intros Hin. destruct (entry_ltb x best) eqn:Hxb.
    + apply entry_ltb_lt in Hxb.
      apply elem_of_cons in Hin as [->|Hin]; [|by apply IH].
      apply smallest_below. unfold entry_lt in *. lia.
    + apply elem_of_cons in Hin as [->|[->|Hin]%elem_of_cons].
      * apply IH, list_elem_of_here.
      * apply smallest_below. rewrite <- entry_ltb_lt. congruence.
      * by apply IH, list_elem_of_further.
Qed.

Lemma remove_item_perm item heap :
  item ∈ heap → heap ≡ₚ item :: remove_item item heap.
Proof.
  induction heap as [|x heap IH]; simpl.
  - intros H; inversion H.
  - intros Hin. destruct (decide (x = item)) as [->|Hne]; [done|].
    apply elem_of_cons in Hin as [->|Hin]; [done|].
    rewrite (IH Hin) at 1. apply Permutation_swap.
Qed.

Lemma heappop_perm heap m rest :
  heappop heap = Some (m, rest) → heap ≡ₚ m :: rest.
Proof.
  destruct heap as [|x heap]; simpl; [done|].
  intros [= <- <-]. apply (remove_item_perm _ (x :: heap)), smallest_elem.
Qed.

Lemma heappop_elem heap m rest e :
  heappop heap = Some (m, rest) → e ∈ heap ↔ e = m ∨ e ∈ rest.
Proof.
  intros Hp. rewrite (heappop_perm _ _ _ Hp). apply elem_of_cons.
Qed.

Lemma heappop_length heap m rest :
  heappop heap = Some (m, rest) →
  Datatypes.length heap = S (Datatypes.length rest).
Proof. intros Hp. by rewrite (heappop_perm _ _ _ Hp). Qed.

Lemma heappop_least heap m rest e :
  heappop heap = Some (m, rest) → e ∈ heap → ¬ entry_lt e m.
Proof.
  destruct heap as [|x heap]; simpl; [done|].
  intros [= <- _]. apply smallest_least.
Qed.

(** The item popped depends on the items only, not on how the heap
    arranges them: the list stands for the array of [heapq] whatever its
    layout. *)
Lemma heappop_layout heap1 heap2 m1 rest1 m2 rest2 :
  heap1 ≡ₚ heap2 →
  heappop heap1 = Some (m1, rest1) → heappop heap2 = Some (m2, rest2) →
  m1 = m2 ∧ rest1 ≡ₚ rest2.
Proof.
  intros Hperm Hpop1 Hpop2.
  assert (m1 ∈ heap2) as Hin1.
  { rewrite <- Hperm. apply (heappop_elem _ _ _ m1 Hpop1). by left. }
  assert (m2 ∈ heap1) as Hin2.
  { rewrite Hperm. apply (heappop_elem _ _ _ m2 Hpop2). by left. }
  pose proof (heappop_least _ _ _ _ Hpop1 Hin2) as H21.
  pose proof (heappop_least _ _ _ _ Hpop2 Hin1) as H12.
  assert (m1 = m2) as ->.
  { destruct m1 as [p1 [x1 y1]], m2 as [p2 [x2 y2]].
    unfold entry_lt in *. simpl in *.
    assert (p1 = p2 ∧ x1 = x2 ∧ y1 = y2) as (-> & -> & ->) by lia. done. }
  split; [done|].
  apply (Permutation_cons_inv (a := m2)).
  rewrite <- (heappop_perm _ _ _ Hpop1), <- (heappop_perm _ _ _ Hpop2). done.
Qed.

End Frontier.

(** ** The sum of the costs *)

Section TotalCost.

Implicit Types m : gmap cell Z.

Lemma total_cost_empty : total_cost ∅ = 0.
Proof. unfold total_cost. by rewrite map_fold_empty. Qed.

Lemma total_cost_insert_None m c v :
  m !! c = None → total_cost (<[c := v]> m) = v + total_cost m.
Proof.
  intros Hc. unfold total_cost.
  rewrite map_fold_insert_L; [done| intros; lia | done].
Qed.

Lemma total_cost_delete m c v :
  m !! c = Some v → total_cost m = v + total_cost (delete c m).
Proof.
  intros Hc. unfold total_cost.
  rewrite (map_fold_delete_L _ _ c v m); [done| intros; lia | done].
Qed.

Lemma total_cost_insert_Some m c old v :
  m !! c = Some old → total_cost (<[c := v]> m) = total_cost m - old + v.
Proof.
  intros Hc. rewrite <- insert_delete_eq.
  rewrite total_cost_insert_None by apply lookup_delete_eq.
  rewrite (total_cost_delete m c old Hc). lia.
Qed.

Lemma total_cost_nonneg m :
  (∀ c v, m !! c = Some v → 0 ≤ v) → 0 ≤ total_cost m.
Proof.
  induction m as [|c v m Hc IH] using map_ind; intros Hpos.
  - by rewrite total_cost_empty.
  - rewrite total_cost_insert_None by done.
    assert (0 ≤ v) by (apply (Hpos c); by rewrite lookup_insert_eq).
    assert (0 ≤ total_cost m); [|lia].
    apply IH. intros c' v' Hc'. apply (Hpos c').
    rewrite lookup_insert_ne; [done|]. intros ->. congruence.
Qed.

End TotalCost.

(** ** Counting the cells the search can record *)

Section Lattice.

Variables (position : list cell) (start : cell).

Lemma lattice_cells_length :
  Datatypes.length (lattice_cells start) = Z.to_nat CELLS.
Proof. destruct start as [sx sy]. vm_compute. reflexivity. Qed.

Lemma lattice_coordinate s x i extent :
  x = s + i * GRID_SIZE → 0 ≤ x → x < extent * GRID_SIZE →
  x ∈ (λ k, s `mod` GRID_SIZE + k * GRID_SIZE) <$> seqZ 0 extent.
Proof.
  unfold GRID_SIZE. intros -> Hlo Hhi.
  apply list_elem_of_fmap. exists ((s + i * 20) `div` 20). split.
  - pose proof (Z_mod_plus_full s i 20) as Hmod.
    pose proof (Z_div_mod_eq_full (s + i * 20) 20). lia.
  - apply elem_of_seqZ. split.
    + apply Z.div_pos; lia.
    + rewrite Z.add_0_l. apply Z.div_lt_upper_bound; lia.
Qed.

Lemma lattice_cells_elem c :
  outside c = false → on_lattice start c → c ∈ lattice_cells start.
Proof.
  intros Hin (i & j & ->). unfold outside in Hin. simpl in Hin.
  rewrite !orb_false_iff in Hin. destruct Hin as [[[H1 H2] H3] H4].
  apply Z.ltb_ge in H1, H3.
  rewrite Z.geb_leb in H2, H4. apply Z.leb_gt in H2, H4.
  unfold lattice_cells.
  apply list_elem_of_bind. eexists. split.
  - apply list_elem_of_bind. eexists. split.
    + apply list_elem_of_singleton. reflexivity.
    + apply (lattice_coordinate _ _ j); [done|done|]. exact H4.
  - apply (lattice_coordinate _ _ i); [done|done|]. exact H2.
Qed.

Lemma search_inv_key st c :
  search_inv position start st → is_Some (cost_so_far st !! c) →
  c = start ∨ (blocked position c = false ∧ on_lattice start c).
Proof.
  intros Hinv Hc.
  destruct (came_from st !! c) as [[p|]|] eqn:Hcame.
  - right. split; [|by apply (inv_lattice _ _ _ Hinv)].
    by destruct (inv_link _ _ _ Hinv c p Hcame).
  - left. by apply (inv_root _ _ _ Hinv).
  - apply (inv_keys _ _ _ Hinv) in Hcame. rewrite Hcame in Hc.
    by destruct Hc.
Qed.

Lemma blocked_false_outside c :
  blocked position c = false → outside c = false.
Proof. unfold blocked. by intros [? _]%orb_false_iff. Qed.

Lemma blocked_false_free c :
  blocked position c = false → c ∉ position.
Proof.
  unfold blocked. intros [_ H]%orb_false_iff.
  by apply bool_decide_eq_false in H.
Qed.

Lemma search_inv_size st :
  search_inv position start st →
  Z.of_nat (size (cost_so_far st)) ≤ CELLS + 1.
Proof.
  intros Hinv.
  assert ((Datatypes.length (map_to_list (cost_so_far st)).*1
           ≤ Datatypes.length (start :: lattice_cells start))%nat) as Hle.
  { apply submseteq_length, NoDup_submseteq.
    - apply NoDup_fst_map_to_list.
    - intros c [[c' v] [-> Hcv]]%list_elem_of_fmap. simpl.
      apply elem_of_map_to_list in Hcv.
      destruct (search_inv_key st c' Hinv) as [->|[Hb Hl]]; [by eexists| |].
      + apply list_elem_of_here.
      + apply list_elem_of_further, lattice_cells_elem; [|done].
        by apply blocked_false_outside. }
  rewrite length_fmap, length_map_to_list in Hle.
  cbn [Datatypes.length] in Hle. rewrite lattice_cells_length in Hle.
  assert (0 ≤ CELLS) by (vm_compute; discriminate). lia.
Qed.

End Lattice.

(** ** The invariant of the search loop *)

Section Search.

Variables (position : list cell) (start end_ : cell).

Lemma step_orthogonal (cur d : cell) :
  d ∈ DIRS →
  orthogonal cur (cur.1 + d.1 * GRID_SIZE, cur.2 + d.2 * GRID_SIZE).
Proof.
  unfold DIRS, orthogonal, GRID_SIZE. rewrite !elem_of_cons, elem_of_nil.
  intros [->|[->|[->|[->|[]]]]]; simpl; lia.
Qed.

Lemma step_on_lattice (cur d : cell) :
  on_lattice start cur →
  on_lattice start (cur.1 + d.1 * GRID_SIZE, cur.2 + d.2 * GRID_SIZE).
Proof.
  intros (i & j & ->). exists (i + d.1), (j + d.2). simpl. f_equal; lia.
Qed.

Lemma search_inv_init : search_inv position start (astar_init start end_).
Proof.
  split; simpl.
  - apply lookup_insert_eq.
  - apply lookup_insert_eq.
  - intros c. destruct (decide (c = start)) as [->|Hne].
    + by rewrite !lookup_insert_eq.
    + rewrite !lookup_insert_ne, !lookup_empty by done. done.
  - intros c p. destruct (decide (c = start)) as [->|Hne].
    + by rewrite lookup_insert_eq.
    + by rewrite lookup_insert_ne, lookup_empty by done.
  - intros c. destruct (decide (c = start)) as [->|Hne]; [done|].
    by rewrite lookup_insert_ne, lookup_empty by done.
  - intros c v. rewrite map_size_insert_None by apply lookup_empty.
    destruct (decide (c = start)) as [->|Hne].
    + rewrite lookup_insert_eq. intros [= <-]. lia.
    + by rewrite lookup_insert_ne, lookup_empty by done.
  - intros e ->%list_elem_of_singleton. simpl. by rewrite lookup_insert_eq.
  - intros c. destruct (decide (c = start)) as [->|Hne].
    + intros _. exists 0, 0. destruct start. simpl. f_equal; lia.
    + rewrite lookup_insert_ne, lookup_empty by done. by intros [? ?].
Qed.

Lemma end_pending_init : end_pending end_ (astar_init start end_).
Proof.
  unfold end_pending. simpl. intros Hsome.
  destruct (decide (end_ = start)) as [->|Hne].
  - eexists. apply list_elem_of_here.
  - rewrite lookup_insert_ne, lookup_empty in Hsome by done.
    by destruct Hsome.
Qed.

Lemma rounds_left_init :
  rounds_left (astar_init start end_) < Z.of_nat astar_fuel.
Proof.
  unfold rounds_left, astar_fuel. simpl.
  rewrite map_size_insert_None by apply lookup_empty.
  rewrite total_cost_insert_None by apply lookup_empty.
  rewrite total_cost_empty, map_size_empty.
  change CELLS with 768. lia.
Qed.

(** What [relax] does to the state, case by case. *)
Lemma relax_cases cur next new_cost st :
  (relax end_ cur next new_cost st = st ∧
   ∃ old, cost_so_far st !! next = Some old ∧ old ≤ new_cost) ∨
  (relax end_ cur next new_cost st =
     {| open_list := open_list st ++ [(new_cost + heuristic next end_, next)];
        came_from := <[next := Some cur]> (came_from st);
        cost_so_far := <[next := new_cost]> (cost_so_far st) |} ∧
   (cost_so_far st !! next = None ∨
    ∃ old, cost_so_far st !! next = Some old ∧ new_cost < old)).
Proof.
  unfold relax, heappush.
  destruct (cost_so_far st !! next) as [old|] eqn:Hnext.
  - destruct (Z.ltb_spec new_cost old); [right|left]; eauto.
  - right. eauto.
Qed.

Lemma relax_inv st cur next v :
  search_inv position start st → end_pending end_ st →
  cost_so_far st !! cur = Some v →
  blocked position next = false → orthogonal cur next →
  on_lattice start next →
  search_inv position start (relax end_ cur next (v + 1) st) ∧
  end_pending end_ (relax end_ cur next (v + 1) st) ∧
  rounds_left (relax end_ cur next (v + 1) st) ≤ rounds_left st ∧
  (∀ c, is_Some (cost_so_far st !! c) →
        is_Some (cost_so_far (relax end_ cur next (v + 1) st) !! c)).
Proof.
  intros Hinv Hend Hcur Hfree Horth Hlat.
  pose proof (inv_cost _ _ _ Hinv cur v Hcur) as Hv.
  destruct (relax_cases cur next (v + 1) st) as [[-> _]|[-> Hnext]]; [done|].
  assert (next ≠ start) as Hns.
  { intros ->. rewrite (inv_cost_start _ _ _ Hinv) in Hnext.
    destruct Hnext as [|(old & [= <-] & ?)]; [done|lia]. }
  assert (next ≠ cur) as Hnc.
  { intros ->. rewrite Hcur in Hnext.
    destruct Hnext as [|(old & [= <-] & ?)]; [done|lia]. }
  assert (Z.of_nat (size (<[next := v + 1]> (cost_so_far st)))
          ≤ Z.of_nat (size (cost_so_far st)) + 1 ∧
          ∀ old, cost_so_far st !! next = Some old →
                 size (<[next := v + 1]> (cost_so_far st)) = size (cost_so_far st))
    as [Hsize Hsize'].
  { rewrite map_size_insert. destruct (cost_so_far st !! next); simpl.
    - split; [lia|done].
    - split; [lia|done]. }
  assert (search_inv position start
    {| open_list := open_list st ++ [(v + 1 + heuristic next end_, next)];
       came_from := <[next := Some cur]> (came_from st);
       cost_so_far := <[next := v + 1]> (cost_so_far st) |}) as Hinv'.
  { split; simpl.
    - rewrite lookup_insert_ne by done. apply Hinv.
    - rewrite lookup_insert_ne by done. apply Hinv.
    - intros c. destruct (decide (c = next)) as [->|Hne].
      + by rewrite !lookup_insert_eq.
      + rewrite !lookup_insert_ne by done. apply Hinv.
    - intros c p. destruct (decide (c = next)) as [->|Hne].
      + rewrite !lookup_insert_eq. intros [= <-].
        split; [done|]. split; [done|].
        exists v, (v + 1). rewrite lookup_insert_ne by done.
        split; [done|]. split; [done|lia].
      + rewrite !lookup_insert_ne by done. intros Hc.
        destruct (inv_link _ _ _ Hinv c p Hc) as (? & ? & vp & vc & Hp & Hvc & ?).
        split; [done|]. split; [done|].
        destruct (decide (p = next)) as [->|Hpn].
        * exists (v + 1), vc. rewrite lookup_insert_eq. split; [done|].
          rewrite lookup_insert_ne by done.
          split; [done|]. rewrite Hp in Hnext.
          destruct Hnext as [|(old & [= <-] & ?)]; [done|lia].
        * exists vp, vc. by rewrite !lookup_insert_ne.
    - intros c. destruct (decide (c = next)) as [->|Hne].
      + by rewrite lookup_insert_eq.
      + rewrite lookup_insert_ne by done. apply Hinv.
    - intros c w. destruct (decide (c = next)) as [->|Hne].
      + rewrite lookup_insert_eq. intros [= <-].
        destruct Hnext as [Hnone|(old & Hold & ?)].
        * rewrite map_size_insert_None by done. lia.
        * rewrite (Hsize' _ Hold).
          pose proof (inv_cost _ _ _ Hinv next old Hold). lia.
      + rewrite lookup_insert_ne by done. intros Hc.
        pose proof (inv_cost _ _ _ Hinv c w Hc).
        rewrite map_size_insert. destruct (cost_so_far st !! next); simpl; lia.
    - intros e [He| ->%list_elem_of_singleton]%elem_of_app.
      + apply lookup_insert_is_Some'. right. by apply Hinv.
      + simpl. rewrite lookup_insert_eq. by eexists.
    - intros c. destruct (decide (c = next)) as [->|Hne]; [done|].
      rewrite lookup_insert_ne by done. apply Hinv. }
  split; [exact Hinv'|]. split; [|split].
  - unfold end_pending. simpl. intros Hsome.
    destruct (decide (end_ = next)) as [->|Hne].
    + eexists. apply elem_of_app. right. apply list_elem_of_here.
    + rewrite lookup_insert_ne in Hsome by done.
      destruct (Hend Hsome) as [p Hp]. exists p. apply elem_of_app. by left.
  - pose proof (search_inv_size _ _ _ Hinv') as Hbound. simpl in Hbound.
    unfold rounds_left. simpl. rewrite length_app. simpl.
    destruct Hnext as [Hnone|(old & Hold & ?)].
    + rewrite map_size_insert_None in * by done.
      rewrite total_cost_insert_None by done.
      change CELLS with 768 in *. lia.
    + rewrite (Hsize' _ Hold).
      rewrite (total_cost_insert_Some _ _ old) by done. lia.
  - simpl. intros c Hc. apply lookup_insert_is_Some'. by right.
Qed.

Lemma visit_inv st cur d :
  search_inv position start st → end_pending end_ st →
  is_Some (cost_so_far st !! cur) → d ∈ DIRS →
  ∃ st', visit position end_ cur st d = Ok st' ∧
    search_inv position start st' ∧ end_pending end_ st' ∧
    rounds_left st' ≤ rounds_left st ∧
    (∀ c, is_Some (cost_so_far st !! c) → is_Some (cost_so_far st' !! c)).
Proof.
  intros Hinv Hend [v Hcur] Hd. unfold visit.
  destruct (blocked position _) eqn:Hb.
  - exists st. split_and!; (done || lia).
  - rewrite Hcur. simpl. eexists. split; [reflexivity|].
    apply relax_inv; try done.
    + by apply step_orthogonal.
    + apply step_on_lattice, (inv_lattice _ _ _ Hinv). by eexists.
Qed.

Lemma for_each_inv ds : ∀ st cur,
  (∀ d, d ∈ ds → d ∈ DIRS) →
  search_inv position start st → end_pending end_ st →
  is_Some (cost_so_far st !! cur) →
  ∃ st', for_each position end_ cur ds st = Ok st' ∧
    search_inv position start st' ∧ end_pending end_ st' ∧
    rounds_left st' ≤ rounds_left st.
Proof.
  induction ds as [|d ds IH]; intros st cur Hds Hinv Hend Hcur; simpl.
  - exists st. split_and!; (done || lia).
  - destruct (visit_inv st cur d Hinv Hend Hcur) as (st1 & -> & Hinv1 & Hend1 & Hle & Hkeys).
    { apply Hds, list_elem_of_here. }
    simpl. destruct (IH st1 cur) as (st2 & -> & Hinv2 & Hend2 & Hle2); auto.
    { intros d' Hd'. by apply Hds, list_elem_of_further. }
    exists st2. split_and!; (done || lia).
Qed.

Lemma rounds_left_nonneg st :
  search_inv position start st → 0 ≤ rounds_left st.
Proof.
  intros Hinv. unfold rounds_left.
  pose proof (search_inv_size _ _ _ Hinv).
  assert (0 ≤ total_cost (cost_so_far st)).
  { apply total_cost_nonneg. intros c v Hc.
    by destruct (inv_cost _ _ _ Hinv c v Hc). }
  change CELLS with 768 in *. lia.
Qed.

Lemma astar_round_inv st :
  search_inv position start st → end_pending end_ st →
  ∃ r, astar_round position end_ st = Ok r ∧
    match r with
    | Exhausted => came_from st !! end_ = None
    | Reached c st' =>
        c = end_ ∧ search_inv position start st' ∧
        is_Some (came_from st' !! end_)
    | Expanded c st' =>
        c ≠ end_ ∧ search_inv position start st' ∧ end_pending end_ st' ∧
        rounds_left st' < rounds_left st
    end.
Proof.
  intros Hinv Hend. unfold astar_round.
  destruct (heappop (open_list st)) as [[[pr cur] rest]|] eqn:Hpop.
  - pose proof (heappop_elem _ _ _ (pr, cur) Hpop) as Hcur.
    assert (is_Some (cost_so_far st !! cur)) as Hknown.
    { apply (inv_open _ _ _ Hinv (pr, cur)), Hcur. by left. }
    set (st1 := {| open_list := rest; came_from := came_from st;
                   cost_so_far := cost_so_far st |}).
    assert (search_inv position start st1) as Hinv1.
    { destruct Hinv. split; simpl; try done.
      intros e He. apply inv_open0, (heappop_elem _ _ _ e Hpop). by right. }
    destruct (decide (cur = end_)) as [->|Hne].
    + eexists. split; [reflexivity|]. split; [done|]. split; [done|].
      simpl. destruct (came_from st !! end_) eqn:Hc; [by eexists|].
      apply (inv_keys _ _ _ Hinv) in Hc. rewrite Hc in Hknown.
      by destruct Hknown.
    + assert (end_pending end_ st1) as Hend1.
      { intros Hsome. destruct (Hend Hsome) as [p Hp].
        apply (heappop_elem _ _ _ _ Hpop) in Hp as [[= ? ?]|Hp]; [done|].
        by exists p. }
      destruct (for_each_inv DIRS st1 cur) as (st2 & -> & Hinv2 & Hend2 & Hle);
        auto.
      simpl. eexists. split; [reflexivity|].
      split; [done|]. split; [done|]. split; [done|].
      assert (rounds_left st1 < rounds_left st); [|lia].
      unfold rounds_left, st1. simpl.
      rewrite (heappop_length _ _ _ Hpop). lia.
  - exists Exhausted. split; [done|].
    destruct (open_list st) as [|x heap] eqn:Hopen; [|done].
    destruct (came_from st !! end_) eqn:Hc; [|done].
    destruct Hend as [p Hp]; [by rewrite Hc|].
    rewrite Hopen in Hp. by apply elem_of_nil in Hp.
Qed.

Lemma astar_loop_inv fuel : ∀ st cur,
  search_inv position start st → end_pending end_ st →
  rounds_left st < Z.of_nat fuel →
  ∃ st' cur', astar_loop fuel position end_ st cur = Ok (st', cur') ∧
    search_inv position start st' ∧
    (came_from st' !! end_ = None ∨
     (cur' = Some end_ ∧ is_Some (came_from st' !! end_))).
Proof.
  induction fuel as [|fuel IH]; intros st cur Hinv Hend Hfuel.
  - pose proof (rounds_left_nonneg st Hinv). lia.
  - simpl. destruct (astar_round_inv st Hinv Hend) as (r & -> & Hr). simpl.
    destruct r as [|c st'|c st'].
    + exists st, cur. auto.
    + destruct Hr as (-> & Hinv' & Hsome). exists st', (Some end_). auto.
    + destruct Hr as (Hne & Hinv' & Hend' & Hlt).
      apply IH; [done|done|lia].
Qed.

End Search.

(** ** The path that is handed back *)

Section Route.

Variables (position : list cell) (start end_ : cell).

Lemma linked_snoc path p c :
  linked path → last path = Some p → orthogonal p c → linked (path ++ [c]).
Proof.
  induction path as [|a [|b rest] IH]; simpl.
  - done.
  - intros _ [= ->] Horth. done.
  - intros [Hab Hl] Hlast Horth. split; [done|]. by apply IH.
Qed.

Lemma linked_lookup path (i : nat) a b :
  linked path → path !! i = Some a → path !! S i = Some b → orthogonal a b.
Proof.
  revert i. induction path as [|x [|y rest] IH]; intros i Hl Ha Hb.
  - done.
  - done.
  - destruct Hl as [Hxy Hl]. destruct i as [|i].
    + simpl in Ha, Hb. congruence.
    + by apply (IH i).
Qed.

Lemma route_start : route position start start [start].
Proof. split_and!; try done. simpl. by intros c ?%elem_of_nil. Qed.

Lemma route_snoc path p c :
  route position start p path →
  blocked position c = false → orthogonal p c →
  route position start c (path ++ [c]).
Proof.
  intros (Hhead & Hlast & Hlinked & Hfree) Hc Horth.
  destruct path as [|a path]; [done|].
  split_and!.
  - done.
  - apply last_snoc.
  - by apply (linked_snoc _ p).
  - simpl in *. intros c' [Hc'| ->%list_elem_of_singleton]%elem_of_app; auto.
Qed.

Lemma same_keys_size (came : gmap cell (option cell)) (cost : gmap cell Z) :
  (∀ c, came !! c = None ↔ cost !! c = None) → size came = size cost.
Proof.
  intros Hkeys. rewrite <- !size_dom. f_equal.
  apply set_eq. intros c. rewrite !elem_of_dom, <- !not_eq_None_Some.
  by rewrite Hkeys.
Qed.

Lemma walk_back_route st fuel : ∀ c v,
  search_inv position start st →
  cost_so_far st !! c = Some v → v < Z.of_nat fuel →
  ∃ appended, walk_back fuel (came_from st) start c = Ok appended ∧
    route position start c (rev (appended ++ [start])).
Proof.
  induction fuel as [|fuel IH]; intros c v Hinv Hc Hv.
  - pose proof (inv_cost _ _ _ Hinv c v Hc). lia.
  - simpl. destruct (decide (c = start)) as [->|Hne].
    + exists []. split; [done|]. apply route_start.
    + destruct (came_from st !! c) as [[p|]|] eqn:Hcame.
      * destruct (inv_link _ _ _ Hinv c p Hcame)
          as (Hfree & Horth & vp & vc & Hp & Hvc & Hle).
        assert (vc = v) as -> by congruence.
        destruct (IH p vp Hinv Hp) as (l & -> & Hroute); [lia|].
        simpl. exists (c :: l). split; [done|].
        simpl. by apply (route_snoc _ p).
      * by apply (inv_root _ _ _ Hinv) in Hcame.
      * apply (inv_keys _ _ _ Hinv) in Hcame. congruence.
Qed.

(** [astar] always returns: [None], or a route from [start] to [end_]. *)
Lemma astar_outcome :
  ∃ st, search_inv position start st ∧
    ((came_from st !! end_ = None ∧ astar position start end_ = Ok None) ∨
     (is_Some (came_from st !! end_) ∧
      ∃ path, astar position start end_ = Ok (Some path) ∧
        route position start end_ path ∧
        (start = end_ → path = [start]))).
Proof.
  destruct (astar_loop_inv position start end_ astar_fuel
              (astar_init start end_) None)
    as (st & cur & Hloop & Hinv & Hcases).
  { apply search_inv_init. }
  { apply end_pending_init. }
  { apply rounds_left_init. }
  exists st. split; [done|]. unfold astar. rewrite Hloop. simpl.
  destruct Hcases as [Hnone|[-> Hsome]].
  - left. by rewrite Hnone.
  - right. split; [done|].
    destruct (came_from st !! end_) as [prev|] eqn:Hcame; [|by destruct Hsome].
    simpl.
    destruct (cost_so_far st !! end_) as [v|] eqn:Hcost.
    2:{ apply (inv_keys _ _ _ Hinv) in Hcost. congruence. }
    destruct (walk_back_route st (size (came_from st)) end_ v Hinv Hcost)
      as (l & Hwalk & Hroute).
    { rewrite (same_keys_size _ (cost_so_far st)) by apply Hinv.
      by destruct (inv_cost _ _ _ Hinv end_ v Hcost). }
    rewrite Hwalk. simpl. eexists. split; [reflexivity|]. split; [done|].
    intros ->. destruct (size (came_from st)); simpl in Hwalk;
      rewrite decide_True in Hwalk by done; by injection Hwalk as <-.
Qed.

End Route.

(** ** The food generator and the movement *)

Section Movement.

Lemma draws_ind (P : list Z → Prop) :
  P [] → (∀ r, P [r]) → (∀ r1 r2 rest, P rest → P (r1 :: r2 :: rest)) →
  ∀ draws, P draws.
Proof.
  intros Hnil Hone Hstep draws.
  assert (P draws ∧ ∀ r, P (r :: draws)) as [? _]; [|done].
  induction draws as [|r draws [IH1 IH2]]; split; auto.
Qed.

Lemma generate_food_unfold position r1 r2 rest :
  generate_food position (r1 :: r2 :: rest) =
    let drawn := (randint 0 (WIDTH / GRID_SIZE - 1) r1 * GRID_SIZE,
                  randint 0 (HEIGHT / GRID_SIZE - 1) r2 * GRID_SIZE) in
    if bool_decide (drawn ∉ position) then Ok (drawn, rest)
    else generate_food position rest.
Proof. reflexivity. Qed.

Lemma generate_food_accepts position r1 r2 rest :
  let drawn := (randint 0 (WIDTH / GRID_SIZE - 1) r1 * GRID_SIZE,
                randint 0 (HEIGHT / GRID_SIZE - 1) r2 * GRID_SIZE) in
  drawn ∉ position →
  generate_food position (r1 :: r2 :: rest) = Ok (drawn, rest).
Proof.
  intros drawn Hfree. rewrite generate_food_unfold.
  cbv zeta. by rewrite bool_decide_eq_true_2.
Qed.

Lemma generate_food_rejects position r1 r2 rest :
  (randint 0 (WIDTH / GRID_SIZE - 1) r1 * GRID_SIZE,
   randint 0 (HEIGHT / GRID_SIZE - 1) r2 * GRID_SIZE) ∈ position →
  generate_food position (r1 :: r2 :: rest) = generate_food position rest.
Proof.
  intros Hin. rewrite generate_food_unfold.
  cbv zeta. rewrite bool_decide_eq_false_2; [done|]. tauto.
Qed.

Lemma randint_range a b r : a ≤ b → a ≤ randint a b r ≤ b.
Proof.
  intros Hab. unfold randint.
  pose proof (Z.mod_pos_bound r (b - a + 1)). lia.
Qed.

Lemma generate_food_free position draws : ∀ new_food draws',
  generate_food position draws = Ok (new_food, draws') →
  (new_food ∉ position) ∧ outside new_food = false.
Proof.
  induction draws as [|r|r1 r2 rest IH] using draws_ind;
    intros new_food draws'; try done.
  rewrite generate_food_unfold. cbv zeta.
  destruct (bool_decide _) eqn:Hfree; [|apply IH].
  intros [= <- <-]. split; [by apply bool_decide_eq_true in Hfree|].
  pose proof (randint_range 0 (WIDTH / GRID_SIZE - 1) r1) as H1.
  pose proof (randint_range 0 (HEIGHT / GRID_SIZE - 1) r2) as H2.
  change (WIDTH / GRID_SIZE - 1) with 31 in *.
  change (HEIGHT / GRID_SIZE - 1) with 23 in *.
  unfold outside. cbn [fst snd].
  rewrite !orb_false_iff, !Z.geb_leb, !Z.ltb_ge, !Z.leb_gt.
  unfold WIDTH, HEIGHT, GRID_SIZE. lia.
Qed.

Lemma normalize_orthogonal a b :
  orthogonal a b →
  ∃ dir, normalize (b.1 - a.1, b.2 - a.2) = Ok dir.
Proof.
  unfold orthogonal, normalize, GRID_SIZE. intros Horth.
  rewrite decide_False.
  - rewrite decide_True; [by eexists|]. simpl. lia.
  - intros [= ? ?]. lia.
Qed.

(** The ways [move] returns. *)
Lemma move_cases s draws s' draws' :
  move s draws = Ok (s', draws') →
  ∃ h, head (position s) = Some h ∧
    ((s' = s ∧ draws' = draws) ∨
     ∃ path next dir,
       astar (position s) h (food s) = Ok (Some path) ∧
       path !! 1%nat = Some next ∧
       ((next = food s ∧ ∃ new_food,
           generate_food (next :: position s) draws = Ok (new_food, draws') ∧
           s' = {| position := next :: position s; direction := dir;
                   length := length s + 1; food := new_food;
                   score := score s + 1 |}) ∨
        (next ≠ food s ∧ draws' = draws ∧
         s' = {| position := removelast (next :: position s);
                 direction := dir; length := length s; food := food s;
                 score := score s |}))).
Proof.
  unfold move. destruct (head (position s)) as [h|]; simpl; [|done].
  intros Hmove. exists h. split; [done|].
  destruct (astar (position s) h (food s)) as [[path|]|] eqn:Hastar;
    simpl in Hmove; [| |done].
  2:{ left. by injection Hmove as <- <-. }
  destruct (Datatypes.length path <? 2)%nat.
  { left. by injection Hmove as <- <-. }
  destruct (path !! 1%nat) as [next|] eqn:Hnext; simpl in Hmove; [|done].
  destruct (normalize _) as [dir|]; simpl in Hmove; [|done].
  right. exists path, next, dir. split; [done|]. split; [done|].
  destruct (decide (next = food s)) as [Heq|Hne].
  - left. split; [done|].
    destruct (generate_food _ _) as [[nf d]|]; simpl in Hmove; [|done].
    injection Hmove as <- <-. by exists nf.
  - right. by injection Hmove as <- <-.
Qed.

(** Without a path of two cells [move] returns at line 141. *)
Lemma move_noop s draws h :
  head (position s) = Some h →
  (astar (position s) h (food s) = Ok None ∨
   ∃ path, astar (position s) h (food s) = Ok (Some path) ∧
           (Datatypes.length path < 2)%nat) →
  move s draws = Ok (s, draws).
Proof.
  intros Hhead Hastar. unfold move. rewrite Hhead. simpl.
  destruct Hastar as [->|(path & -> & Hshort)]; simpl; [done|].
  apply Nat.ltb_lt in Hshort. by rewrite Hshort.
Qed.

(** When the search hands back a path with a second cell, [move] takes it:
    no exception is raised on the way. *)
Lemma move_step s draws h path next :
  head (position s) = Some h →
  astar (position s) h (food s) = Ok (Some path) →
  path !! 1%nat = Some next →
  ∃ dir,
    move s draws =
      if decide (next = food s) then
        '(new_food, draws') ← generate_food (next :: position s) draws;
        Ok ({| position := next :: position s; direction := dir;
               length := length s + 1; food := new_food;
               score := score s + 1 |}, draws')
      else
        Ok ({| position := removelast (next :: position s);
               direction := dir; length := length s; food := food s;
               score := score s |}, draws).
Proof.
  intros Hhead Hastar Hnext.
  destruct (astar_outcome (position s) h (food s))
    as (st & _ & [[_ Hnone]|(_ & path' & Hsome & Hroute & _)]);
    [congruence|].
  assert (path' = path) as -> by congruence.
  destruct Hroute as (Hh & _ & Hlinked & _).
  destruct path as [|a [|b rest]]; try done.
  simpl in Hh, Hnext. injection Hh as ->. injection Hnext as ->.
  destruct Hlinked as [Horth _].
  destruct (normalize_orthogonal _ _ Horth) as [dir Hdir].
  exists dir. unfold move. rewrite Hhead. simpl. rewrite Hastar. simpl.
  rewrite Hdir. simpl. done.
Qed.

Lemma move_no_exception s draws :
  position s ≠ [] →
  (∃ s' draws', move s draws = Ok (s', draws')) ∨
  move s draws = Err OutOfDraws.
Proof.
  intros Hne. destruct (position s) as [|h t] eqn:Hpos; [done|].
  destruct (astar_outcome (position s) h (food s))
    as (st & _ & [[_ Hnone]|(_ & path & Hsome & Hroute & _)]).
  - left. exists s, draws. unfold move. rewrite Hpos. simpl.
    rewrite <- Hpos, Hnone. done.
  - destruct path as [|a [|b rest]] eqn:Hpath.
    + by destruct Hroute.
    + left. exists s, draws. unfold move. rewrite Hpos. simpl.
      rewrite <- Hpos, Hsome. done.
    + destruct (move_step s draws h path b) as [dir ->]; subst path; try done.
      { by rewrite Hpos. }
      destruct (decide (b = food s)); [|left; eauto].
      induction draws as [|r|r1 r2 more IH] using draws_ind;
        try (by right).
      rewrite generate_food_unfold. cbv zeta.
      destruct (bool_decide _); [left; eauto|]. apply IH.
Qed.

End Movement.

(** ** What a round pushes *)

Section Enqueue.

Lemma round_effect_refl end_ v st : round_effect end_ v st st.
Proof. split; auto. Qed.

Lemma round_effect_trans end_ v st st1 st2 :
  round_effect end_ v st st1 → round_effect end_ v st1 st2 →
  round_effect end_ v st st2.
Proof.
  intros [Hc1 Ho1] [Hc2 Ho2].
  assert (∀ c, cost_so_far st2 !! c = Some (v + 1) →
               cheaper (v + 1) (cost_so_far st1 !! c) →
               cheaper (v + 1) (cost_so_far st !! c)) as Hfresh.
  { intros c H2 Hch. destruct (Hc1 c) as [<-|[H1 _]]; [done|].
    rewrite H1 in Hch. simpl in Hch. lia. }
  split.
  - intros c. destruct (Hc2 c) as [->|[H2 Hch]]; [apply Hc1|].
    right. split; [done|]. by apply Hfresh.
  - intros e He. destruct (Ho2 e He) as [He1|(Hp & H2 & Hch)].
    + destruct (Ho1 e He1) as [?|(Hp & H1 & Hch)]; [by left|].
      right. split; [done|]. split; [|done].
      destruct (Hc2 e.2) as [->|[H2 _]]; done.
    + right. split; [done|]. split; [done|]. by apply Hfresh.
Qed.

Lemma relax_effect end_ cur next v st :
  cost_so_far st !! cur = Some v →
  round_effect end_ v st (relax end_ cur next (v + 1) st) ∧
  cost_so_far (relax end_ cur next (v + 1) st) !! cur = Some v.
Proof.
  intros Hcur.
  destruct (relax_cases end_ cur next (v + 1) st) as [[-> _]|[-> Hnext]].
  { split; [apply round_effect_refl|done]. }
  assert (cheaper (v + 1) (cost_so_far st !! next)) as Hch.
  { destruct Hnext as [->|(old & -> & ?)]; done. }
  assert (next ≠ cur) as Hne.
  { intros ->. rewrite Hcur in Hch. simpl in Hch. lia. }
  split; [split|]; simpl.
  - intros c. destruct (decide (c = next)) as [->|Hc].
    + right. by rewrite lookup_insert_eq.
    + left. by rewrite lookup_insert_ne.
  - intros e [He| ->%list_elem_of_singleton]%elem_of_app; [by left|].
    right. simpl. by rewrite lookup_insert_eq.
  - by rewrite lookup_insert_ne.
Qed.

Lemma for_each_effect position end_ cur ds : ∀ st st',
  for_each position end_ cur ds st = Ok st' →
  st' = st ∨
  ∃ v, cost_so_far st !! cur = Some v ∧ round_effect end_ v st st' ∧
       cost_so_far st' !! cur = Some v.
Proof.
  induction ds as [|d ds IH]; intros st st'; simpl.
  - intros [= <-]. by left.
  - unfold visit. destruct (blocked position _); simpl; [apply IH|].
    destruct (cost_so_far st !! cur) as [v|] eqn:Hcur; simpl; [|done].
    intros Hrest. right. exists v. split; [done|].
    destruct (relax_effect end_ cur
                (cur.1 + d.1 * GRID_SIZE, cur.2 + d.2 * GRID_SIZE) v st Hcur)
      as [Heff Hcur1].
    destruct (IH _ _ Hrest) as [->|(v' & Hv' & Heff' & Hcur')]; [done|].
    assert (v' = v) as -> by congruence.
    split; [|done]. by eapply round_effect_trans.
Qed.

End Enqueue.

(** ** Sessions *)

Section Sessions.

Lemma removelast_cons_length {A} (x : A) (l : list A) :
  Datatypes.length (removelast (x :: l)) = Datatypes.length l.
Proof.
  revert x. induction l as [|y l IH]; intros x; [done|].
  change (removelast (x :: y :: l)) with (x :: removelast (y :: l)).
  cbn [Datatypes.length]. by rewrite IH.
Qed.

Lemma reachable_moves n : ∀ s draws s' draws',
  reachable s → moves n s draws = Ok (s', draws') → reachable s'.
Proof.
  induction n as [|n IH]; intros s draws s' draws' Hreach; simpl.
  - by intros [= <- <-].
  - destruct (move s draws) as [[s1 d1]|] eqn:Hmove; simpl; [|done].
    apply IH. by eapply reachable_move.
Qed.

Lemma reachable_play draws n s draws' :
  ('(s0, d0) ← init draws; moves n s0 d0) = Ok (s, draws') → reachable s.
Proof.
  destruct (init draws) as [[s0 d0]|] eqn:Hinit; simpl; [|done].
  apply reachable_moves. by eapply reachable_init.
Qed.

End Sessions.

(** ** The food generator, cell by cell *)

Section Food.

Lemma generate_food_cons position r1 r2 rest :
  generate_food position (r1 :: r2 :: rest) =
    if bool_decide (drawn_cell r1 r2 ∉ position)
    then Ok (drawn_cell r1 r2, rest)
    else generate_food position rest.
Proof. reflexivity. Qed.

Lemma drawn_cells_cons r1 r2 rest :
  drawn_cells (r1 :: r2 :: rest) = drawn_cell r1 r2 :: drawn_cells rest.
Proof. reflexivity. Qed.

Lemma generate_food_first position draws : ∀ f draws',
  generate_food position draws = Ok (f, draws') ↔
  ∃ k : nat,
    drawn_cells draws !! k = Some f ∧ (f ∉ position) ∧
    (∀ (j : nat) c, (j < k)%nat → drawn_cells draws !! j = Some c →
                    c ∈ position) ∧
    draws' = drop (2 * S k) draws.
Proof.
  induction draws as [|r|r1 r2 rest IH] using draws_ind; intros f draws'.
  - split; [done|]. by intros (k & Hk & _).
  - split; [done|]. by intros (k & Hk & _).
  - rewrite generate_food_cons, drawn_cells_cons.
    destruct (bool_decide _) eqn:Hfree.
    + apply bool_decide_eq_true in Hfree. split.
      * intros [= <- <-]. exists 0%nat. split_and!; try done. intros; lia.
      * intros ([|k] & Hk & Hf & Hbefore & ->).
        -- simpl in Hk. by injection Hk as <-.
        -- exfalso. apply Hfree, (Hbefore 0%nat); [lia|done].
    + apply bool_decide_eq_false in Hfree.
      assert (drawn_cell r1 r2 ∈ position) as Hin.
      { destruct (decide (drawn_cell r1 r2 ∈ position)); [done|].
        by exfalso; apply Hfree. }
      rewrite IH. split.
      * intros (k & Hk & Hf & Hbefore & ->). exists (S k).
        split_and!; try done.
        -- intros [|j] c Hj Hc.
           ++ simpl in Hc. by injection Hc as <-.
           ++ apply (Hbefore j); [lia|done].
        -- by replace (2 * S (S k))%nat with (S (S (2 * S k))) by lia.
      * intros ([|k] & Hk & Hf & Hbefore & ->).
        -- simpl in Hk. injection Hk as <-. done.
        -- exists k. split_and!; try done.
           ++ intros j c Hj Hc. apply (Hbefore (S j)); [lia|done].
           ++ by replace (2 * S (S k))%nat with (S (S (2 * S k))) by lia.
Qed.

Lemma generate_food_fails position draws :
  (∀ c, c ∈ drawn_cells draws → c ∈ position) ↔
  generate_food position draws = Err OutOfDraws.
Proof.
  induction draws as [|r|r1 r2 rest IH] using draws_ind.
  - split; [done|]. by intros _ c ?%elem_of_nil.
  - split; [done|]. by intros _ c ?%elem_of_nil.
  - rewrite generate_food_cons, drawn_cells_cons.
    destruct (bool_decide _) eqn:Hfree.
    + apply bool_decide_eq_true in Hfree. split; [|done].
      intros Hall. exfalso. apply Hfree, Hall, list_elem_of_here.
    + apply bool_decide_eq_false in Hfree.
      assert (drawn_cell r1 r2 ∈ position) as Hin.
      { destruct (decide (drawn_cell r1 r2 ∈ position)); [done|].
        by exfalso; apply Hfree. }
      rewrite <- IH. split.
      * intros Hall c Hc. by apply Hall, list_elem_of_further.
      * intros Hall c [->|Hc]%elem_of_cons; auto.
Qed.

Lemma generate_food_errors position draws e :
  generate_food position draws = Err e → e = OutOfDraws.
Proof.
  induction draws as [|r|r1 r2 rest IH] using draws_ind;
    [by intros [= <-]|by intros [= <-]|].
  rewrite generate_food_cons. by destruct (bool_decide _).
Qed.

(** The cells that can be drawn are the cells of the grid. *)
Lemma drawn_cell_grid r1 r2 : drawn_cell r1 r2 ∈ lattice_cells (0, 0).
Proof.
  apply lattice_cells_elem.
  - pose proof (randint_range 0 (WIDTH / GRID_SIZE - 1) r1) as H1.
    pose proof (randint_range 0 (HEIGHT / GRID_SIZE - 1) r2) as H2.
    change (WIDTH / GRID_SIZE - 1) with 31 in *.
    change (HEIGHT / GRID_SIZE - 1) with 23 in *.
    unfold outside, drawn_cell. cbn [fst snd].
    change (WIDTH / GRID_SIZE - 1) with 31.
    change (HEIGHT / GRID_SIZE - 1) with 23.
    rewrite !orb_false_iff, !Z.geb_leb, !Z.ltb_ge, !Z.leb_gt.
    unfold WIDTH, HEIGHT, GRID_SIZE. lia.
  - eexists _, _. unfold drawn_cell. cbn [fst snd]. f_equal; symmetry;
      apply Z.add_0_l.
Qed.

Lemma grid_cell_drawn c :
  c ∈ lattice_cells (0, 0) →
  drawn_cell (c.1 / GRID_SIZE) (c.2 / GRID_SIZE) = c.
Proof.
  unfold lattice_cells. cbn [fst snd].
  intros (x & (y & ->%list_elem_of_singleton & Hy)%list_elem_of_bind & Hx)%list_elem_of_bind.
  apply list_elem_of_fmap in Hx as (i & -> & Hi%elem_of_seqZ).
  apply list_elem_of_fmap in Hy as (j & -> & Hj%elem_of_seqZ).
  change (WIDTH / GRID_SIZE) with 32 in Hi.
  change (HEIGHT / GRID_SIZE) with 24 in Hj.
  unfold drawn_cell, randint, GRID_SIZE. cbn [fst snd].
  change (WIDTH `div` 20 - 1 - 0 + 1) with 32.
  change (HEIGHT `div` 20 - 1 - 0 + 1) with 24.
  rewrite !Z.add_0_l, !Z.div_mul by done.
  rewrite !Z.mod_small by lia. done.
Qed.



End Food.

(** * The claims *)

Section Claims.

(** C1: the path of [astar] is not always a shortest one.  In the state
    below, which a game reaches after 22 calls of [move], the food is 6
    steps from the head and [astar] returns a path of 8 steps: the
    heuristic counts pixels while the cost counts steps, so it
    overestimates twentyfold and the first path completed wins. *)
Theorem astar_takes_longer_way :
  let s := {| position := [(100, 100); (80, 100); (60, 100); (40, 100); (40, 80)];
              direction := (1, 0); length := 5; food := (20, 100);
              score := 4 |} in
  reachable s ∧
  ∃ found shorter,
    astar (position s) (100, 100) (food s) = Ok (Some found) ∧
    route (position s) (100, 100) (food s) shorter ∧
    Datatypes.length found = 9%nat ∧ Datatypes.length shorter = 7%nat.
Proof.
  intros s. split.
  - apply (reachable_play [0; 0; 0; 2; 2; 4; 5; 5; 1; 5] 22 s []).
    vm_compute. reflexivity.
  - exists [(100, 100); (100, 80); (80, 80); (60, 80); (60, 60); (40, 60);
            (20, 60); (20, 80); (20, 100)],
           [(100, 100); (100, 120); (80, 120); (60, 120); (40, 120);
            (20, 120); (20, 100)].
    split; [vm_compute; reflexivity|]. split; [|done].
    split_and!; try done.
    + unfold linked, orthogonal, GRID_SIZE. simpl. lia.
    + intros c Hc. simpl in Hc.
      repeat (apply elem_of_cons in Hc as [->|Hc]; [vm_compute; reflexivity|]).
      by apply elem_of_nil in Hc.
Qed.

(** C2 as stated fails: the end cell gets no exemption.  With the snake on
    (100,100) and (120,100) and the end cell (120,100), the successor
    (120,100) of the head is dropped like any other cell of the body (the
    state is left as it was), and the search returns [None]; with the
    cell free the same round enqueues it. *)
Lemma end_cell_not_exempt :
  let st := astar_init (100, 100) (120, 100) in
  visit [(100, 100); (120, 100)] (120, 100) (100, 100) st (1, 0) = Ok st ∧
  astar [(100, 100); (120, 100)] (100, 100) (120, 100) = Ok None ∧
  open_list <$> of_result (visit [(100, 100)] (120, 100) (100, 100) st (1, 0))
    = Some [(20, (100, 100)); (1, (120, 100))].
Proof. intros st. split_and!; vm_compute; reflexivity. Qed.

(** C2, amended: a successor out of the window or on the snake is
    dropped, the state of the search unchanged, also when it is the end
    cell; and when the end cell is dropped so and is not the start, the
    search returns [None]. *)
Theorem blocked_successor_skipped position start end_ current st d :
  let next := (current.1 + d.1 * GRID_SIZE, current.2 + d.2 * GRID_SIZE) in
  (next.1 < 0 ∨ WIDTH ≤ next.1 ∨ next.2 < 0 ∨ HEIGHT ≤ next.2 ∨
   next ∈ position) →
  visit position end_ current st d = Ok st ∧
  (next = end_ → end_ ≠ start → astar position start end_ = Ok None).
Proof.
  intros next Hblocked.
  assert (blocked position next = true) as Hb.
  { unfold blocked, outside.
    rewrite !orb_true_iff, !Z.geb_leb, !Z.ltb_lt, !Z.leb_le.
    rewrite bool_decide_eq_true. tauto. }
  split.
  - unfold visit. fold next. by rewrite Hb.
  - intros Hend Hne. rewrite Hend in Hb.
    destruct (astar_outcome position start end_)
      as (st' & Hinv & [[_ Hnone]|(Hsome & _)]); [done|].
    destruct (came_from st' !! end_) as [[p|]|] eqn:Hcame.
    + destruct (inv_link _ _ _ Hinv end_ p Hcame) as [Hfree _]. congruence.
    + by apply (inv_root _ _ _ Hinv) in Hcame.
    + by destruct Hsome.
Qed.

Lemma blocked_successor_skipped_witness :
  let st := astar_init (100, 100) (120, 100) in
  visit [(100, 100); (120, 100)] (120, 100) (100, 100) st (1, 0) = Ok st ∧
  astar [(100, 100); (120, 100)] (100, 100) (120, 100) = Ok None.
Proof.
  intros st.
  destruct (blocked_successor_skipped [(100, 100); (120, 100)]
              (100, 100) (120, 100) (100, 100) st (1, 0)) as [Hvisit Hastar].
  { do 4 right. vm_compute. apply list_elem_of_further, list_elem_of_here. }
  split; [exact Hvisit|]. apply Hastar; [reflexivity|discriminate].
Defined.

(** C3 as stated fails: ties are not broken by insertion order.  After the
    first round of the search from (100,100) to (200,0) the heap holds two
    items of priority 181; (120,100) was pushed first, (100,80) last, and
    the next pop returns (100,80). *)
Lemma ties_not_by_insertion :
  ∃ st,
    astar_round [(100, 100)] (200, 0) (astar_init (100, 100) (200, 0))
      = Ok (Expanded (100, 100) st) ∧
    open_list st = [(181, (120, 100)); (221, (80, 100));
                    (221, (100, 120)); (181, (100, 80))] ∧
    heappop (open_list st)
      = Some ((181, (100, 80)),
              [(181, (120, 100)); (221, (80, 100)); (221, (100, 120))]).
Proof. eexists. split_and!; vm_compute; reflexivity. Qed.

(** C3, amended: an item is pushed with the priority cost so far plus
    heuristic; the item popped is one of the heap, the others stay, none
    has a lower priority, and among those of its priority none has a
    smaller cell in the order of Python tuples (first x, then y),
    whatever the order of insertion. *)
Theorem frontier_order :
  (∀ end_ cur next new_cost st e,
     e ∈ open_list (relax end_ cur next new_cost st) →
     e ∈ open_list st ∨
     (e = (new_cost + heuristic next end_, next) ∧
      cost_so_far (relax end_ cur next new_cost st) !! next = Some new_cost)) ∧
  (∀ heap item rest,
     heappop heap = Some (item, rest) →
     heap ≡ₚ item :: rest ∧
     ∀ e, e ∈ heap →
       item.1 ≤ e.1 ∧
       (item.1 = e.1 →
        item.2.1 < e.2.1 ∨ (item.2.1 = e.2.1 ∧ item.2.2 ≤ e.2.2))).
Proof.
  split.
  - intros end_ cur next new_cost st e.
    destruct (relax_cases end_ cur next new_cost st) as [[-> _]|[-> _]];
      [by left|]. simpl.
    intros [He| ->%list_elem_of_singleton]%elem_of_app; [by left|].
    right. by rewrite lookup_insert_eq.
  - intros heap item rest Hpop. split; [by apply heappop_perm|].
    intros e He. pose proof (heappop_least _ _ _ e Hpop He) as Hle.
    unfold entry_lt in Hle. lia.
Qed.

Lemma frontier_order_witness :
  let heap := [(181, (120, 100)); (221, (80, 100)); (181, (100, 80))] in
  heappop heap = Some ((181, (100, 80)), [(181, (120, 100)); (221, (80, 100))]) ∧
  (181 ≤ 181 ∧ (181 = 181 → 100 < 120 ∨ (100 = 120 ∧ 80 ≤ 100))).
Proof.
  intros heap.
  assert (heappop heap
          = Some ((181, (100, 80)), [(181, (120, 100)); (221, (80, 100))]))
    as Hpop by reflexivity.
  split; [exact Hpop|].
  apply (proj2 (proj2 frontier_order heap _ _ Hpop) (181, (120, 100))).
  apply list_elem_of_here.
Defined.

(** C4 as stated fails: a cell can be expanded more than once.  In the
    state below, which a game reaches after 23 calls of [move], the search
    for the food expands (20,100) in its sixth round and again in its
    eighth: the seventh round finds a cheaper way to it and pushes it
    again, and the new item is popped and expanded like any other. *)
Lemma cell_expanded_twice :
  let s := {| position := [(40, 140); (40, 120); (40, 100); (40, 80);
                           (20, 80); (0, 80)];
              direction := (0, 1); length := 6; food := (0, 0);
              score := 5 |} in
  reachable s ∧
  expansions 8 (position s) (food s) (astar_init (40, 140) (food s))
    = [(40, 140); (20, 140); (0, 140); (0, 120); (0, 100);
       (20, 100); (20, 120); (20, 100)] ∧
  ¬ NoDup (expansions 8 (position s) (food s) (astar_init (40, 140) (food s))).
Proof.
  intros s. split_and!.
  - apply (reachable_play [4; 2; 2; 2; 4; 6; 0; 4; 2; 7; 0; 0] 23 s []).
    vm_compute. reflexivity.
  - vm_compute. reflexivity.
  - intros Hnodup. apply (bool_decide_pack _) in Hnodup.
    vm_compute in Hnodup. exact Hnodup.
Qed.

(** C4, amended: a round that expands a cell leaves on the heap the items
    that were there and adds an item for a successor only when the
    successor had no recorded cost or a strictly higher one; the item
    carries the new, cheaper cost, which is the one recorded.  (A cell can
    be expanded several times.) *)
Theorem enqueue_only_when_cheaper position end_ st c st' :
  astar_round position end_ st = Ok (Expanded c st') →
  ∀ e, e ∈ open_list st' →
    e ∈ open_list st ∨
    ∃ new_cost,
      cost_so_far st' !! e.2 = Some new_cost ∧
      e.1 = new_cost + heuristic e.2 end_ ∧
      cheaper new_cost (cost_so_far st !! e.2).
Proof.
  unfold astar_round.
  destruct (heappop (open_list st)) as [[[pr cur] rest]|] eqn:Hpop; [|done].
  destruct (decide (cur = end_)); [done|].
  destruct (for_each _ _ _ _ _) as [st2|] eqn:Hfor; simpl; [|done].
  intros [= <- <-] e He.
  assert (∀ e, e ∈ rest → e ∈ open_list st) as Hrest.
  { intros e' He'. apply (heappop_elem _ _ _ e' Hpop). by right. }
  destruct (for_each_effect _ _ _ _ _ _ Hfor) as [->|(v & _ & [_ Heff] & _)].
  - left. by apply Hrest.
  - destruct (Heff e He) as [?|(Hp & Hcost & Hch)]; [left; by apply Hrest|].
    right. by exists (v + 1).
Qed.

Lemma enqueue_only_when_cheaper_witness :
  ∃ st,
    astar_round [(100, 100)] (200, 0) (astar_init (100, 100) (200, 0))
      = Ok (Expanded (100, 100) st) ∧
    ((181, (120, 100)) ∈ open_list (astar_init (100, 100) (200, 0)) ∨
     ∃ new_cost,
       cost_so_far st !! (120, 100) = Some new_cost ∧
       181 = new_cost + heuristic (120, 100) (200, 0) ∧
       cheaper new_cost (cost_so_far (astar_init (100, 100) (200, 0))
                           !! (120, 100))).
Proof.
  assert (∃ st,
    astar_round [(100, 100)] (200, 0) (astar_init (100, 100) (200, 0))
      = Ok (Expanded (100, 100) st) ∧
    (181, (120, 100)) ∈ open_list st) as (st & Hround & Hin).
  { eexists. split; [vm_compute; reflexivity|].
    vm_compute. apply list_elem_of_here. }
  exists st. split; [exact Hround|].
  exact (enqueue_only_when_cheaper _ _ _ _ _ Hround _ Hin).
Defined.

(** C5: a path that [astar] returns starts at [start] and ends at [end_],
    every two consecutive cells of it are one orthogonal grid step apart,
    none of its interior cells is on the snake, and it is [[start]] when
    [start] is [end_]. *)
Theorem astar_path_shape position start end_ path :
  astar position start end_ = Ok (Some path) →
  head path = Some start ∧
  last path = Some end_ ∧
  (∀ (i : nat) a b,
     path !! i = Some a → path !! S i = Some b → orthogonal a b) ∧
  (∀ (i : nat) c,
     (0 < i)%nat → (S i < Datatypes.length path)%nat →
     path !! i = Some c → c ∉ position) ∧
  (start = end_ → path = [start]).
Proof.
  intros Hastar.
  destruct (astar_outcome position start end_)
    as (st & _ & [[_ Hnone]|(_ & path' & Hsome & Hroute & Hsingle)]);
    [congruence|].
  assert (path' = path) as -> by congruence.
  destruct Hroute as (Hhead & Hlast & Hlinked & Hfree).
  split_and!; try done.
  - intros i a b. by apply linked_lookup.
  - intros i c Hi _ Hc. apply (blocked_false_free position), Hfree.
    destruct path as [|a rest]; [done|]. destruct i as [|i]; [lia|].
    simpl in *. by eapply list_elem_of_lookup_2.
Qed.

Lemma astar_path_shape_witness :
  astar [(100, 100)] (100, 100) (100, 160)
    = Ok (Some [(100, 100); (100, 120); (100, 140); (100, 160)]) ∧
  last [(100, 100); (100, 120); (100, 140); (100, 160)] = Some (100, 160).
Proof.
  split; [vm_compute; reflexivity|].
  apply (astar_path_shape [(100, 100)] (100, 100) (100, 160)).
  vm_compute. reflexivity.
Defined.




(** C7: when [astar] returns [None] or a path of fewer than two cells,
    [move] returns without changing anything: the segments, the
    direction, the length, the food and the score are the ones before the
    call (and no random number is drawn). *)
Theorem move_without_path s draws h :
  head (position s) = Some h →
  (astar (position s) h (food s) = Ok None ∨
   ∃ path, astar (position s) h (food s) = Ok (Some path) ∧
           (Datatypes.length path < 2)%nat) →
  move s draws = Ok (s, draws).
Proof. apply move_noop. Qed.

Lemma move_without_path_witness :
  let s := {| position := [(100, 100); (120, 100)]; direction := (-1, 0);
              length := 2; food := (120, 100); score := 1 |} in
  astar (position s) (100, 100) (food s) = Ok None ∧
  move s [7; 7] = Ok (s, [7; 7]).
Proof.
  intros s. split; [vm_compute; reflexivity|].
  apply (move_without_path s [7; 7] (100, 100)); [reflexivity|].
  left. vm_compute. reflexivity.
Defined.

(** C8: [check_collision] answers, and its answer is [True] exactly when
    the head is out of the window (a coordinate below 0 or at or beyond
    the extent) or equal to a segment at index 1 or later; so a head one
    cell left of the window or at the column [WIDTH // GRID_SIZE] gives
    [True]. *)
Theorem check_collision_spec s h :
  head (position s) = Some h →
  (check_collision s = Ok true ∨ check_collision s = Ok false) ∧
  (check_collision s = Ok true ↔
     (h.1 < 0 ∨ WIDTH ≤ h.1 ∨ h.2 < 0 ∨ HEIGHT ≤ h.2) ∨
     ∃ i : nat, (1 ≤ i)%nat ∧ position s !! i = Some h) ∧
  (h.1 = - 1 * GRID_SIZE ∨ h.1 = WIDTH / GRID_SIZE * GRID_SIZE →
   check_collision s = Ok true).
Proof.
  intros Hhead. unfold check_collision. rewrite Hhead. simpl.
  destruct (position s) as [|h' body] eqn:Hpos; [done|].
  simpl in Hhead. injection Hhead as ->. simpl.
  assert (outside h = true ↔ h.1 < 0 ∨ WIDTH ≤ h.1 ∨ h.2 < 0 ∨ HEIGHT ≤ h.2)
    as Hout.
  { unfold outside. rewrite !orb_true_iff, !Z.geb_leb, !Z.ltb_lt, !Z.leb_le.
    tauto. }
  assert (h ∈ body ↔ ∃ i : nat, (1 ≤ i)%nat ∧ (h :: body) !! i = Some h)
    as Hbody.
  { rewrite list_elem_of_lookup. split.
    - intros [i Hi]. exists (S i). split; [lia|done].
    - intros ([|i] & Hi & Hl); [lia|]. by exists i. }
  destruct (outside h) eqn:Ho.
  - split_and!; auto. split; [|done]. intros _. left. by apply Hout.
  - assert (¬ (h.1 < 0 ∨ WIDTH ≤ h.1 ∨ h.2 < 0 ∨ HEIGHT ≤ h.2)) as Hin.
    { rewrite <- Hout. done. }
    destruct (bool_decide (h ∈ body)) eqn:Hb.
    + apply bool_decide_eq_true in Hb. split_and!; auto.
      split; [|done]. intros _. right. by apply Hbody.
    + apply bool_decide_eq_false in Hb. split_and!; auto.
      * split; [done|]. intros [?|?]; [done|]. by apply Hbody in H.
      * intros Hx. exfalso. apply Hin. unfold WIDTH, GRID_SIZE in *.
        change (640 `div` 20 * 20) with 640 in Hx. lia.
Qed.

Lemma check_collision_spec_witness :
  let s := {| position := [(-20, 100); (0, 100)]; direction := (-1, 0);
              length := 2; food := (40, 40); score := 1 |} in
  head (position s) = Some (-20, 100) ∧ check_collision s = Ok true.
Proof.
  intros s. split; [reflexivity|].
  apply (check_collision_spec s (-20, 100)); [reflexivity|].
  left. reflexivity.
Defined.

(** C9: the segment list is not empty and the [length] attribute is the
    number of segments, in the state [__init__] builds and, if before a
    call of [move], after it too. *)
Theorem snake_inv_kept :
  (∀ draws s draws', init draws = Ok (s, draws') → snake_inv s) ∧
  (∀ s draws s' draws',
     snake_inv s → move s draws = Ok (s', draws') → snake_inv s').
Proof.
  split.
  - intros draws s draws'. unfold init.
    destruct (generate_food _ draws) as [[f d]|]; simpl; [|done].
    intros [= <- <-]. by split.
  - intros s draws s' draws' [Hne Hlen] Hmove.
    destruct (move_cases _ _ _ _ Hmove)
      as (h & Hhead & [[-> ->]|(path & next & dir & _ & _ & Hcase)]); [done|].
    destruct Hcase as [(_ & nf & _ & ->)|(_ & _ & ->)];
      split; cbn [position length].
    + done.
    + rewrite Hlen. cbn [Datatypes.length]. lia.
    + destruct (position s); done.
    + by rewrite removelast_cons_length.
Qed.

Lemma snake_inv_kept_witness :
  let s := {| position := [(100, 100)]; direction := (1, 0);
              length := 1; food := (100, 120); score := 0 |} in
  let s' := {| position := [(100, 120); (100, 100)]; direction := (0, 1);
               length := 2; food := (60, 80); score := 1 |} in
  snake_inv s ∧ move s [3; 4] = Ok (s', []) ∧ snake_inv s'.
Proof.
  intros s s'.
  assert (snake_inv s) as Hs by (split; [discriminate|reflexivity]).
  assert (move s [3; 4] = Ok (s', [])) as Hmove by (vm_compute; reflexivity).
  split; [exact Hs|]. split; [exact Hmove|].
  exact (proj2 snake_inv_kept s [3; 4] s' [] Hs Hmove).
Defined.

(** C10: every cell of a returned path after the first is inside the
    window; so a call of [move] leaves the head inside the window, and in
    every state reached from [__init__] by calls of [move] the head is
    inside: [check_collision] never answers through its wall branch, its
    answer is that of the test against the body. *)
Theorem head_stays_inside :
  (∀ position start end_ path c,
     astar position start end_ = Ok (Some path) → c ∈ tail path →
     outside c = false) ∧
  (∀ s draws s' draws' h,
     head (position s) = Some h → outside h = false →
     move s draws = Ok (s', draws') →
     ∃ h', head (position s') = Some h' ∧ outside h' = false) ∧
  (∀ s, reachable s →
     ∃ h, head (position s) = Some h ∧ outside h = false ∧
          check_collision s = Ok (bool_decide (h ∈ tail (position s)))).
Proof.
  assert (∀ position start end_ path c,
     astar position start end_ = Ok (Some path) → c ∈ tail path →
     outside c = false) as Hpath.
  { intros position start end_ path c Hastar Hc.
    destruct (astar_outcome position start end_)
      as (st & _ & [[_ Hnone]|(_ & path' & Hsome & Hroute & _)]);
      [congruence|].
    assert (path' = path) as -> by congruence.
    destruct Hroute as (_ & _ & _ & Hfree).
    by apply (blocked_false_outside position), Hfree. }
  assert (∀ s draws s' draws' h,
     head (position s) = Some h → outside h = false →
     move s draws = Ok (s', draws') →
     ∃ h', head (position s') = Some h' ∧ outside h' = false) as Hmove.
  { intros s draws s' draws' h Hhead Hin Hmove.
    destruct (move_cases _ _ _ _ Hmove)
      as (h0 & Hhead0 & [[-> ->]|(path & next & dir & Hastar & Hnext & Hcase)]).
    { by exists h. }
    assert (outside next = false) as Hnin.
    { apply (Hpath _ _ _ _ _ Hastar).
      destruct path as [|a rest]; [done|]. simpl in *.
      by eapply list_elem_of_lookup_2. }
    exists next. split; [|done].
    destruct Hcase as [(_ & nf & _ & ->)|(_ & _ & ->)]; cbn [position].
    - done.
    - destruct (position s); done. }
  split; [exact Hpath|]. split; [exact Hmove|].
  intros s Hreach.
  assert (∃ h, head (position s) = Some h ∧ outside h = false)
    as (h & Hhead & Hin).
  { induction Hreach as [draws s draws' Hinit|s draws s' draws' _ IH Hm].
    - unfold init in Hinit.
      destruct (generate_food _ draws) as [[f d]|]; simpl in Hinit; [|done].
      injection Hinit as <- <-. by exists (5 * GRID_SIZE, 5 * GRID_SIZE).
    - destruct IH as (h & Hhead & Hin). by eapply Hmove. }
  exists h. split; [done|]. split; [done|].
  unfold check_collision. rewrite Hhead. simpl. rewrite Hin.
  by destruct (bool_decide _).
Qed.

Lemma head_stays_inside_witness :
  let s := {| position := [(0, 0)]; direction := (-1, 0);
              length := 1; food := (0, 40); score := 0 |} in
  let s' := {| position := [(0, 20)]; direction := (0, 1);
               length := 1; food := (0, 40); score := 0 |} in
  move s [] = Ok (s', []) ∧
  ∃ h', head (position s') = Some h' ∧ outside h' = false.
Proof.
  intros s s'.
  assert (move s [] = Ok (s', [])) as Hmove by (vm_compute; reflexivity).
  split; [exact Hmove|].
  exact (proj1 (proj2 head_stays_inside) s [] s' [] (0, 0)
           eq_refl eq_refl Hmove).
Defined.

End Claims.

(** * Further properties *)

(** ** The search finds a route whenever there is one *)

Section Completeness.

Variables (position : list cell) (start end_ : cell).

Lemma relax_closed_but cur next new_cost st :
  closed_but position cur st →
  closed_but position cur (relax end_ cur next new_cost st) ∧
  (∀ c, is_Some (cost_so_far st !! c) →
        is_Some (cost_so_far (relax end_ cur next new_cost st) !! c)) ∧
  is_Some (cost_so_far (relax end_ cur next new_cost st) !! next).
Proof.
  intros Hclosed.
  destruct (relax_cases end_ cur next new_cost st)
    as [[-> (old & Hold & _)]|[-> _]].
  { split_and!; [done|done|by eexists]. }
  simpl. split_and!.
  - intros c Hc. simpl in Hc.
    destruct (decide (c = next)) as [->|Hne].
    + right. left. eexists. apply elem_of_app. right. apply list_elem_of_here.
    + rewrite lookup_insert_ne in Hc by done.
      destruct (Hclosed c Hc) as [?|[[p Hp]|Hall]]; [by left| |].
      * right. left. exists p. apply elem_of_app. by left.
      * right. right. intros d Hd Hfree. simpl.
        apply lookup_insert_is_Some'. right. by apply Hall.
  - intros c Hc. apply lookup_insert_is_Some'. by right.
  - rewrite lookup_insert_eq. by eexists.
Qed.

Lemma visit_closed_but cur st d st' :
  visit position end_ cur st d = Ok st' → closed_but position cur st →
  closed_but position cur st' ∧
  (∀ c, is_Some (cost_so_far st !! c) → is_Some (cost_so_far st' !! c)) ∧
  (blocked position (cur.1 + d.1 * GRID_SIZE, cur.2 + d.2 * GRID_SIZE) = false →
   is_Some (cost_so_far st' !! (cur.1 + d.1 * GRID_SIZE, cur.2 + d.2 * GRID_SIZE))).
Proof.
  unfold visit. destruct (blocked position _) eqn:Hb.
  - intros [= <-] Hclosed. split_and!; done.
  - destruct (cost_so_far st !! cur) as [v|]; simpl; [|done].
    intros [= <-] Hclosed.
    destruct (relax_closed_but cur
                (cur.1 + d.1 * GRID_SIZE, cur.2 + d.2 * GRID_SIZE)
                (v + 1) st Hclosed) as (? & ? & ?).
    split_and!; done.
Qed.

Lemma for_each_closed_but cur ds : ∀ st st',
  for_each position end_ cur ds st = Ok st' → closed_but position cur st →
  closed_but position cur st' ∧
  (∀ c, is_Some (cost_so_far st !! c) → is_Some (cost_so_far st' !! c)) ∧
  (∀ d, d ∈ ds →
     blocked position (cur.1 + d.1 * GRID_SIZE, cur.2 + d.2 * GRID_SIZE) = false →
     is_Some (cost_so_far st' !! (cur.1 + d.1 * GRID_SIZE, cur.2 + d.2 * GRID_SIZE))).
Proof.
  induction ds as [|d ds IH]; intros st st'; simpl.
  - intros [= <-] Hclosed. split_and!; [done|done|].
    by intros d ?%elem_of_nil.
  - destruct (visit position end_ cur st d) as [st1|] eqn:Hvisit;
      simpl; [|done].
    intros Hrest Hclosed.
    destruct (visit_closed_but _ _ _ _ Hvisit Hclosed) as (Hc1 & Hk1 & Hd1).
    destruct (IH _ _ Hrest Hc1) as (Hc2 & Hk2 & Hd2).
    split_and!; [done|auto|].
    intros d' [->|Hin]%elem_of_cons Hfree; auto.
Qed.

Lemma astar_round_closed st :
  frontier_closed position st →
  match astar_round position end_ st with
  | Ok Exhausted => open_list st = []
  | Ok (Expanded c st') => frontier_closed position st'
  | _ => True
  end.
Proof.
  intros Hclosed. unfold astar_round.
  destruct (heappop (open_list st)) as [[[pr cur] rest]|] eqn:Hpop.
  2:{ by destruct (open_list st). }
  destruct (decide (cur = end_)); [done|].
  destruct (for_each _ _ _ _ _) as [st'|] eqn:Hfor; simpl; [|done].
  destruct (for_each_closed_but _ _ _ _ Hfor) as (Hc & _ & Hd).
  { intros c Hc. simpl in Hc.
    destruct (Hclosed c Hc) as [[p Hp]|Hall]; [|by right; right].
    apply (heappop_elem _ _ _ _ Hpop) in Hp as [[= _ ->]|Hp]; [by left|].
    right. left. by exists p. }
  intros c Hknown. destruct (Hc c Hknown) as [->|[?|?]]; auto.
Qed.

Lemma frontier_closed_init : frontier_closed position (astar_init start end_).
Proof.
  intros c Hc. simpl in Hc. left.
  destruct (decide (c = start)) as [->|Hne].
  - eexists. apply list_elem_of_here.
  - rewrite lookup_insert_ne, lookup_empty in Hc by done. by destruct Hc.
Qed.

Lemma astar_loop_closed fuel : ∀ st cur st' cur',
  search_inv position start st → end_pending end_ st →
  frontier_closed position st →
  astar_loop fuel position end_ st cur = Ok (st', cur') →
  search_inv position start st' ∧
  ((cur' = Some end_ ∧ is_Some (came_from st' !! end_)) ∨
   (came_from st' !! end_ = None ∧ open_list st' = [] ∧
    frontier_closed position st')).
Proof.
  induction fuel as [|fuel IH]; intros st cur st' cur' Hinv Hend Hclosed;
    simpl; [done|].
  pose proof (astar_round_closed st Hclosed) as Hround.
  destruct (astar_round_inv position start end_ st Hinv Hend)
    as (r & Hr & Hcase).
  rewrite Hr in *. simpl. destruct r as [|c st1|c st1].
  - intros [= <- <-]. split; [done|]. right. done.
  - intros [= <- <-]. destruct Hcase as (-> & Hinv1 & Hsome).
    split; [done|]. left. done.
  - destruct Hcase as (_ & Hinv1 & Hend1 & _). by apply IH.
Qed.

Lemma orthogonal_step (a b : cell) :
  orthogonal a b →
  ∃ d, d ∈ DIRS ∧ b = (a.1 + d.1 * GRID_SIZE, a.2 + d.2 * GRID_SIZE).
Proof.
  destruct a as [ax ay], b as [bx by_].
  unfold orthogonal, GRID_SIZE, DIRS. simpl. intros Horth.
  destruct (decide (bx - ax = 20)); [exists (1, 0)|
    destruct (decide (bx - ax = -20)); [exists (-1, 0)|
    destruct (decide (by_ - ay = 20)); [exists (0, 1)|exists (0, -1)]]];
    (split; [rewrite !elem_of_cons; auto|simpl; f_equal; lia]).
Qed.

(** In a state where every recorded cell has its open successors
    recorded, every cell of a route from a recorded cell is recorded. *)
Lemma closed_route_known st path : ∀ a,
  (∀ c, is_Some (cost_so_far st !! c) →
     ∀ d, d ∈ DIRS →
       blocked position (c.1 + d.1 * GRID_SIZE, c.2 + d.2 * GRID_SIZE) = false →
       is_Some (cost_so_far st !! (c.1 + d.1 * GRID_SIZE, c.2 + d.2 * GRID_SIZE))) →
  is_Some (cost_so_far st !! a) → linked (a :: path) →
  (∀ c, c ∈ path → blocked position c = false) →
  ∀ c, c ∈ a :: path → is_Some (cost_so_far st !! c).
Proof.
  induction path as [|b path IH]; intros a Hall Ha Hlinked Hfree c.
  - by intros ->%list_elem_of_singleton.
  - intros [->|Hc]%elem_of_cons; [done|].
    destruct Hlinked as [Horth Hlinked].
    apply (IH b); auto.
    + destruct (orthogonal_step a b Horth) as (d & Hd & Hb).
      rewrite Hb. apply Hall; [done|done|]. rewrite <- Hb.
      apply Hfree, list_elem_of_here.
    + intros c' Hc'. by apply Hfree, list_elem_of_further.
Qed.

(** The end of the run of the loop from the initial state. *)
Lemma astar_final :
  ∃ st cur,
    astar_loop astar_fuel position end_ (astar_init start end_) None
      = Ok (st, cur) ∧
    search_inv position start st ∧
    ((cur = Some end_ ∧ is_Some (came_from st !! end_)) ∨
     (came_from st !! end_ = None ∧ open_list st = [] ∧
      frontier_closed position st)).
Proof.
  destruct (astar_loop_inv position start end_ astar_fuel
              (astar_init start end_) None)
    as (st & cur & Hloop & _ & _).
  { apply search_inv_init. }
  { apply end_pending_init. }
  { apply rounds_left_init. }
  exists st, cur. split; [done|].
  eapply astar_loop_closed; eauto using search_inv_init, end_pending_init,
    frontier_closed_init.
Qed.

Lemma astar_None_no_route path :
  astar position start end_ = Ok None → ¬ route position start end_ path.
Proof.
  intros Hnone (Hhead & Hlast & Hlinked & Hfree).
  destruct astar_final as (st & cur & Hloop & Hinv & Hcase).
  unfold astar in Hnone. rewrite Hloop in Hnone. simpl in Hnone.
  destruct Hcase as [[-> [prev Hsome]]|(Hcame & Hopen & Hclosed)].
  - rewrite Hsome in Hnone. simpl in Hnone.
    destruct (walk_back _ _ _ _); done.
  - destruct path as [|a path]; [done|]. simpl in Hhead, Hfree.
    injection Hhead as ->.
    assert (is_Some (cost_so_far st !! end_)) as [v Hv].
    { apply (closed_route_known st path start); auto.
      - intros c Hc. destruct (Hclosed c Hc) as [[p Hp]|Hall]; [|done].
        rewrite Hopen in Hp. by apply elem_of_nil in Hp.
      - rewrite (inv_cost_start _ _ _ Hinv). by eexists.
      - by apply last_Some_elem_of. }
    apply (inv_keys _ _ _ Hinv) in Hcame. congruence.
Qed.

(** What a returned path was read from. *)
Lemma astar_Some_walk path :
  astar position start end_ = Ok (Some path) →
  ∃ st v appended,
    search_inv position start st ∧ cost_so_far st !! end_ = Some v ∧
    walk_back (size (came_from st)) (came_from st) start end_ = Ok appended ∧
    path = rev (appended ++ [start]).
Proof.
  intros Hsome.
  destruct astar_final as (st & cur & Hloop & Hinv & Hcase).
  unfold astar in Hsome. rewrite Hloop in Hsome. simpl in Hsome.
  destruct Hcase as [[-> [prev Hcame]]|(Hcame & _)].
  - rewrite Hcame in Hsome. simpl in Hsome.
    destruct (walk_back _ _ _ _) as [appended|] eqn:Hwalk;
      simpl in Hsome; [|done].
    injection Hsome as <-.
    destruct (cost_so_far st !! end_) as [v|] eqn:Hcost.
    + by exists st, v, appended.
    + apply (inv_keys _ _ _ Hinv) in Hcost. congruence.
  - by rewrite Hcame in Hsome.
Qed.

(** Walking back, the recorded cost falls at every step. *)
Lemma walk_back_costs st fuel : ∀ c v appended,
  search_inv position start st →
  cost_so_far st !! c = Some v →
  walk_back fuel (came_from st) start c = Ok appended →
  NoDup appended ∧
  ∀ x, x ∈ appended →
    x ≠ start ∧ ∃ w, cost_so_far st !! x = Some w ∧ w ≤ v.
Proof.
  induction fuel as [|fuel IH]; intros c v appended Hinv Hc; simpl;
    destruct (decide (c = start)) as [->|Hne].
  - intros [= <-]. split; [constructor|]. by intros x ?%elem_of_nil.
  - done.
  - intros [= <-]. split; [constructor|]. by intros x ?%elem_of_nil.
  - destruct (came_from st !! c) as [[p|]|] eqn:Hcame; [|done|done].
    destruct (inv_link _ _ _ Hinv c p Hcame) as (_ & _ & vp & vc & Hp & Hvc & Hle).
    assert (vc = v) as -> by congruence.
    destruct (walk_back fuel (came_from st) start p) as [rest|] eqn:Hwalk;
      simpl; [|done].
    intros [= <-]. destruct (IH p vp rest Hinv Hp Hwalk) as [Hnodup Hall].
    split.
    + apply NoDup_cons. split; [|done]. intros Hin.
      destruct (Hall c Hin) as (_ & w & Hw & ?).
      assert (w = v) by congruence. lia.
    + intros x [->|Hx]%elem_of_cons.
      * split; [done|]. exists v. split; [done|lia].
      * destruct (Hall x Hx) as (? & w & ? & ?).
        split; [done|]. exists w. split; [done|lia].
Qed.

Lemma walk_back_length st fuel : ∀ c v appended,
  search_inv position start st →
  cost_so_far st !! c = Some v →
  walk_back fuel (came_from st) start c = Ok appended →
  Z.of_nat (Datatypes.length appended) ≤ v.
Proof.
  induction fuel as [|fuel IH]; intros c v appended Hinv Hc; simpl;
    destruct (decide (c = start)) as [->|Hne].
  - intros [= <-]. simpl. by destruct (inv_cost _ _ _ Hinv _ _ Hc).
  - done.
  - intros [= <-]. simpl. by destruct (inv_cost _ _ _ Hinv _ _ Hc).
  - destruct (came_from st !! c) as [[p|]|] eqn:Hcame; [|done|done].
    destruct (inv_link _ _ _ Hinv c p Hcame) as (_ & _ & vp & vc & Hp & Hvc & Hle).
    assert (vc = v) as -> by congruence.
    destruct (walk_back fuel (came_from st) start p) as [rest|] eqn:Hwalk;
      simpl; [|done].
    intros [= <-]. pose proof (IH p vp rest Hinv Hp Hwalk).
    cbn [Datatypes.length]. lia.
Qed.

End Completeness.

Section RouteLength.

Lemma heuristic_triangle a b c :
  heuristic a c ≤ heuristic a b + heuristic b c.
Proof. unfold heuristic. lia. Qed.

Lemma heuristic_orthogonal a b : orthogonal a b → heuristic a b = GRID_SIZE.
Proof. unfold heuristic, orthogonal, GRID_SIZE. lia. Qed.

Lemma linked_manhattan path : ∀ a b,
  linked (a :: path) → last (a :: path) = Some b →
  heuristic a b ≤ GRID_SIZE * Z.of_nat (Datatypes.length path).
Proof.
  induction path as [|c path IH]; intros a b Hlinked Hlast.
  - simpl in Hlast. injection Hlast as <-. unfold heuristic, GRID_SIZE. simpl. lia.
  - destruct Hlinked as [Horth Hlinked]. rewrite last_cons_cons in Hlast.
    pose proof (IH c b Hlinked Hlast).
    pose proof (heuristic_triangle a c b).
    pose proof (heuristic_orthogonal a c Horth).
    cbn [Datatypes.length]. unfold GRID_SIZE in *. lia.
Qed.

End RouteLength.

(** ** The states of a session *)

Section Session.

Lemma orthogonal_sym a b : orthogonal a b → orthogonal b a.
Proof. unfold orthogonal. lia. Qed.

Lemma removelast_cons_cons {A} (x y : A) (l : list A) :
  removelast (x :: y :: l) = x :: removelast (y :: l).
Proof. reflexivity. Qed.

Lemma removelast_elem (c : cell) (l : list cell) :
  c ∈ removelast l → c ∈ l.
Proof.
  induction l as [|x [|y l] IH]; [done| |].
  - simpl. by intros ?%elem_of_nil.
  - rewrite removelast_cons_cons. intros [->|Hc]%elem_of_cons.
    + apply list_elem_of_here.
    + by apply list_elem_of_further, IH.
Qed.

Lemma removelast_NoDup (l : list cell) : NoDup l → NoDup (removelast l).
Proof.
  induction l as [|x [|y l] IH]; [done| |].
  - intros _. constructor.
  - rewrite removelast_cons_cons. intros [Hx Hl]%NoDup_cons.
    apply NoDup_cons. split; [|by apply IH].
    intros Hin. by apply Hx, removelast_elem.
Qed.

Lemma removelast_linked (l : list cell) : linked l → linked (removelast l).
Proof.
  induction l as [|x [|y [|z l]] IH]; try done.
  rewrite !removelast_cons_cons. intros [Hxy Hl].
  split; [done|]. rewrite <- removelast_cons_cons. by apply IH.
Qed.

Lemma astar_second_cell position start end_ path next :
  astar position start end_ = Ok (Some path) → path !! 1%nat = Some next →
  orthogonal start next ∧ blocked position next = false.
Proof.
  intros Hastar Hnext.
  destruct (astar_outcome position start end_)
    as (st & _ & [[_ Hnone]|(_ & path' & Hsome & Hroute & _)]);
    [congruence|].
  assert (path' = path) as -> by congruence.
  destruct Hroute as (Hh & _ & Hlinked & Hfree).
  destruct path as [|a [|b rest]]; try done.
  simpl in Hh, Hnext. injection Hh as ->. injection Hnext as ->.
  destruct Hlinked as [Horth _]. split; [done|].
  apply Hfree. simpl. apply list_elem_of_here.
Qed.

Lemma normalize_step h next dir :
  orthogonal h next →
  normalize (next.1 - h.1, next.2 - h.2) = Ok dir →
  dir ∈ DIRS ∧ next = (h.1 + dir.1 * GRID_SIZE, h.2 + dir.2 * GRID_SIZE).
Proof.
  destruct h as [hx hy], next as [nx ny].
  unfold orthogonal, normalize, GRID_SIZE, DIRS. simpl. intros Horth.
  destruct (decide (_ = _)) as [|_]; [done|].
  destruct (decide (_ ∨ _)) as [_|]; [|done].
  intros [= <-]. rewrite !elem_of_cons. simpl.
  assert ((nx - hx = 20 ∧ ny = hy) ∨ (nx - hx = -20 ∧ ny = hy) ∨
          (ny - hy = 20 ∧ nx = hx) ∨ (ny - hy = -20 ∧ nx = hx))
    as [[H1 ->]|[[H1 ->]|[[H1 ->]|[H1 ->]]]] by lia;
    rewrite H1, ?Z.sub_diag; simpl; split; auto 6; f_equal; lia.
Qed.

(** The ways [move] returns, with the vector that was normalized. *)
Lemma move_inversion s draws s' draws' :
  move s draws = Ok (s', draws') →
  ∃ h, head (position s) = Some h ∧
    ((s' = s ∧ draws' = draws) ∨
     ∃ next dir,
       orthogonal h next ∧ blocked (position s) next = false ∧
       dir ∈ DIRS ∧
       next = (h.1 + dir.1 * GRID_SIZE, h.2 + dir.2 * GRID_SIZE) ∧
       ((next = food s ∧ ∃ new_food,
           generate_food (next :: position s) draws = Ok (new_food, draws') ∧
           s' = {| position := next :: position s; direction := dir;
                   length := length s + 1; food := new_food;
                   score := score s + 1 |}) ∨
        (next ≠ food s ∧ draws' = draws ∧
         s' = {| position := removelast (next :: position s);
                 direction := dir; length := length s; food := food s;
                 score := score s |}))).
Proof.
  unfold move. destruct (head (position s)) as [h|]; simpl; [|done].
  intros Hmove. exists h. split; [done|].
  destruct (astar (position s) h (food s)) as [[path|]|] eqn:Hastar;
    simpl in Hmove; [| |done].
  2:{ left. by injection Hmove as <- <-. }
  destruct (Datatypes.length path <? 2)%nat.
  { left. by injection Hmove as <- <-. }
  destruct (path !! 1%nat) as [next|] eqn:Hnext; simpl in Hmove; [|done].
  destruct (astar_second_cell _ _ _ _ _ Hastar Hnext) as [Horth Hfree].
  destruct (normalize _) as [dir|] eqn:Hdir; simpl in Hmove; [|done].
  destruct (normalize_step _ _ _ Horth Hdir) as [Hdirs Hstep].
  right. exists next, dir. split_and!; try done.
  destruct (decide (next = food s)) as [Heq|Hne].
  - left. split; [done|].
    destruct (generate_food _ _) as [[nf d]|]; simpl in Hmove; [|done].
    injection Hmove as <- <-. by exists nf.
  - right. by injection Hmove as <- <-.
Qed.

Lemma aligned_step h d :
  aligned h → aligned (h.1 + d.1 * GRID_SIZE, h.2 + d.2 * GRID_SIZE).
Proof.
  unfold aligned. simpl. intros [H1 H2].
  by rewrite !Z_mod_plus_full.
Qed.

Lemma randint_nonneg_aligned lo hi r :
  (randint lo hi r * GRID_SIZE) `mod` GRID_SIZE = 0.
Proof. apply Z_mod_mult. Qed.

Lemma generate_food_aligned position draws : ∀ new_food draws',
  generate_food position draws = Ok (new_food, draws') → aligned new_food.
Proof.
  induction draws as [|r|r1 r2 rest IH] using draws_ind;
    intros new_food draws'; try done.
  rewrite generate_food_unfold. cbv zeta.
  destruct (bool_decide _); [|apply IH].
  intros [= <- <-]. split; apply randint_nonneg_aligned.
Qed.

Lemma session_inv_init draws s draws' :
  init draws = Ok (s, draws') → session_inv s.
Proof.
  unfold init.
  destruct (generate_food _ draws) as [[f d]|] eqn:Hfood; simpl; [|done].
  intros [= <- <-].
  destruct (generate_food_free _ _ _ _ Hfood) as [Hfree Hin].
  pose proof (generate_food_aligned _ _ _ _ Hfood) as Hal.
  split; cbn [position food length score direction].
  - apply NoDup_singleton.
  - done.
  - intros c ->%list_elem_of_singleton. split; [done|]. by split.
  - done.
  - done.
  - done.
  - unfold DIRS. apply list_elem_of_here.
Qed.

Lemma session_inv_move s draws s' draws' :
  session_inv s → move s draws = Ok (s', draws') → session_inv s'.
Proof.
  intros Hinv Hmove.
  destruct (move_inversion _ _ _ _ Hmove)
    as (h & Hhead & [[-> ->]|(next & dir & Horth & Hfree & Hdir & Hstep & Hcase)]);
    [done|].
  destruct Hinv as [Hnodup Hlinked Hinside (Hfood & Hfin & Hfal) [Hlen Hcount] Hscore _].
  destruct (position s) as [|h' body] eqn:Hpos; [done|].
  simpl in Hhead. injection Hhead as ->.
  assert (next ∉ h :: body) as Hnew by by apply blocked_false_free.
  assert (outside next = false ∧ aligned next) as Hnext.
  { split; [by eapply blocked_false_outside|].
    rewrite Hstep. apply aligned_step, Hinside, list_elem_of_here. }
  assert (linked (next :: h :: body)) as Hlinked'.
  { split; [by apply orthogonal_sym|done]. }
  assert (NoDup (next :: h :: body)) as Hnodup'.
  { by apply NoDup_cons. }
  destruct Hcase as [(Heq & nf & Hgen & ->)|(Hne & _ & ->)];
    split; cbn [position food length score direction]; try done.
  - intros c [->|Hc]%elem_of_cons; auto.
  - destruct (generate_food_free _ _ _ _ Hgen) as [? ?].
    pose proof (generate_food_aligned _ _ _ _ Hgen). done.
  - cbn [Datatypes.length] in *. lia.
  - lia.
  - by apply removelast_NoDup.
  - by apply removelast_linked.
  - intros c Hc%removelast_elem. apply elem_of_cons in Hc as [->|Hc]; auto.
  - split; [|done]. intros Hin%removelast_elem.
    apply elem_of_cons in Hin as [Heq|Hin]; [by apply Hne|done].
  - rewrite removelast_cons_length. done.
Qed.

Lemma session_inv_reachable s : reachable s → session_inv s.
Proof.
  induction 1 as [draws s draws' Hinit|s draws s' draws' _ IH Hmove].
  - by eapply session_inv_init.
  - by eapply session_inv_move.
Qed.

End Session.


(** ** What is drawn, and the game loop *)

Section Screen.

Lemma draw_lookup s (i : nat) r :
  draw s !! i = Some r →
  ∃ c, (position s ++ [food s]) !! i = Some c ∧
       rect_x r = c.1 ∧ rect_y r = c.2 ∧
       rect_w r = GRID_SIZE ∧ rect_h r = GRID_SIZE ∧
       rect_color r = if decide (i < Datatypes.length (position s))%nat
                      then GREEN else RED.
Proof.
  unfold draw. generalize (position s). intros body. revert i.
  induction body as [|c body IH]; intros i; simpl.
  - destruct i as [|i]; simpl; [|done].
    intros [= <-]. exists (food s). split_and!; done.
  - destruct i as [|i]; simpl.
    + intros [= <-]. exists c. split_and!; done.
    + intros Hr. destruct (IH i Hr) as (c' & Hc' & ? & ? & ? & ? & Hcol).
      exists c'. split_and!; try done. rewrite Hcol.
      repeat case_decide; done || lia.
Qed.

Lemma draw_length s :
  Datatypes.length (draw s) = S (Datatypes.length (position s)).
Proof. unfold draw. rewrite length_app, length_fmap. simpl. lia. Qed.

Lemma aligned_cells_apart (a b : cell) :
  aligned a → aligned b → a ≠ b →
  ¬ (a.1 < b.1 + GRID_SIZE ∧ b.1 < a.1 + GRID_SIZE ∧
     a.2 < b.2 + GRID_SIZE ∧ b.2 < a.2 + GRID_SIZE).
Proof.
  destruct a as [ax ay], b as [bx by_]. unfold aligned, GRID_SIZE. simpl.
  intros [Ha1 Ha2] [Hb1 Hb2] Hne Hnear. apply Hne.
  pose proof (Z_div_mod_eq_full ax 20). pose proof (Z_div_mod_eq_full ay 20).
  pose proof (Z_div_mod_eq_full bx 20). pose proof (Z_div_mod_eq_full by_ 20).
  f_equal; lia.
Qed.

Lemma aligned_inside_on_screen (c : cell) :
  outside c = false → aligned c →
  0 ≤ c.1 ∧ c.1 + GRID_SIZE ≤ WIDTH ∧ 0 ≤ c.2 ∧ c.2 + GRID_SIZE ≤ HEIGHT.
Proof.
  destruct c as [x y]. unfold outside, aligned, WIDTH, HEIGHT, GRID_SIZE.
  simpl. rewrite !orb_false_iff, !Z.geb_leb, !Z.ltb_ge, !Z.leb_gt.
  intros [[[? ?] ?] ?] [Hx Hy].
  pose proof (Z_div_mod_eq_full x 20). pose proof (Z_div_mod_eq_full y 20).
  lia.
Qed.

Lemma session_cells s :
  session_inv s →
  NoDup (position s ++ [food s]) ∧
  ∀ c, c ∈ position s ++ [food s] → outside c = false ∧ aligned c.
Proof.
  intros [Hnodup _ Hinside (Hfood & Hfin & Hfal) _ _ _]. split.
  - apply NoDup_app. split; [done|]. split; [|apply NoDup_singleton].
    intros c Hc ->%list_elem_of_singleton. done.
  - intros c [Hc| ->%list_elem_of_singleton]%elem_of_app; auto.
Qed.

Lemma poll_spec events : ∀ game_over,
  poll events game_over = true ↔ game_over = true ∨ QUIT ∈ events.
Proof.
  unfold poll. induction events as [|e events IH]; intros game_over; simpl.
  - split; [by left|]. by intros [?|?%elem_of_nil].
  - rewrite IH, elem_of_cons. destruct e.
    + split; [|by left]. intros _. right. by left.
    + split; [intros [?|?]; auto|]. intros [?|[?|?]]; auto. done.
Qed.

Lemma check_collision_session s :
  session_inv s → check_collision s = Ok false.
Proof.
  intros [Hnodup _ Hinside _ [_ Hcount] Hscore _].
  unfold check_collision.
  destruct (position s) as [|h body]; [simpl in Hcount; lia|]. simpl.
  destruct (Hinside h) as [-> _]; [apply list_elem_of_here|].
  apply NoDup_cons in Hnodup as [Hh _].
  by rewrite bool_decide_eq_false_2.
Qed.

Lemma main_loop_spec inputs : ∀ s draws frames final over,
  reachable s →
  main_loop inputs s draws = Ok (frames, final, over) →
  reachable final ∧
  (∃ draws', moves (Datatypes.length frames) s draws = Ok (final, draws')) ∧
  (if over
   then ∃ pre events post,
          inputs = pre ++ events :: post ∧ QUIT ∈ events ∧
          Forall (λ ev, QUIT ∉ ev) pre ∧
          Datatypes.length frames = S (Datatypes.length pre)
   else Forall (λ ev, QUIT ∉ ev) inputs ∧
        Datatypes.length frames = Datatypes.length inputs).
Proof.
  induction inputs as [|events inputs IH]; intros s draws frames final over Hreach.
  - simpl. intros [= <- <- <-]. split; [done|]. split; [by eexists|]. done.
  - cbn [main_loop].
    destruct (move s draws) as [[s1 d1]|] eqn:Hmove; simpl; [|done].
    assert (reachable s1) as Hreach1 by by eapply reachable_move.
    rewrite (check_collision_session s1) by by apply session_inv_reachable.
    simpl. destruct (poll events false) eqn:Hpoll.
    + intros [= <- <- <-]. split; [done|]. split.
      { simpl. rewrite Hmove. simpl. by eexists. }
      exists [], events, inputs. split_and!; try done.
      apply poll_spec in Hpoll as [?|?]; done.
    + destruct (main_loop inputs s1 d1) as [[[fs fin] ov]|] eqn:Hloop;
        simpl; [|done].
      intros [= <- <- <-].
      destruct (IH _ _ _ _ _ Hreach1 Hloop) as (Hfin & [d' Hmoves] & Hover).
      assert (QUIT ∉ events) as Hnoquit.
      { intros Hq. assert (poll events false = true) as Ht.
        { apply poll_spec. by right. }
        congruence. }
      split; [done|]. split.
      { simpl. rewrite Hmove. simpl. by eexists. }
      destruct ov.
      * destruct Hover as (pre & ev & post & -> & Hq & Hpre & Hlen).
        exists (events :: pre), ev, post. split_and!; try done.
        -- by constructor.
        -- simpl. by rewrite Hlen.
      * destruct Hover as [Hall Hlen]. split; [by constructor|].
        simpl. by rewrite Hlen.
Qed.

End Screen.

(** ** With nothing in the way the path is a shortest one *)

Section OpenBox.

Variables (position : list cell) (start end_ : cell).

Hypothesis end_on_lattice : on_lattice start end_.

Hypothesis box_open :
  ∀ c, in_box start end_ c → c ≠ start → blocked position c = false.

Lemma heuristic_step a b :
  on_lattice start a → orthogonal a b →
  heuristic b end_ = heuristic a end_ + GRID_SIZE ∨
  heuristic b end_ = heuristic a end_ - GRID_SIZE.
Proof.
  destruct end_on_lattice as (ie & je & ->). intros (i & j & ->).
  unfold orthogonal, heuristic, GRID_SIZE. simpl. lia.
Qed.

Lemma in_box_toward cur next :
  in_box start end_ cur → orthogonal cur next →
  heuristic next end_ = heuristic cur end_ - GRID_SIZE →
  in_box start end_ next ∧ next ≠ start.
Proof.
  intros [Hlat Hsum] Horth Hh.
  destruct (orthogonal_step cur next Horth) as (d & _ & ->).
  split; [split|].
  - by apply step_on_lattice.
  - pose proof (heuristic_triangle start
                  (cur.1 + d.1 * GRID_SIZE, cur.2 + d.2 * GRID_SIZE) end_).
    pose proof (heuristic_triangle start cur
                  (cur.1 + d.1 * GRID_SIZE, cur.2 + d.2 * GRID_SIZE)).
    pose proof (heuristic_orthogonal _ _ Horth).
    unfold GRID_SIZE in *. lia.
  - intros Heq. rewrite Heq in Hh.
    pose proof (heuristic_triangle start cur end_).
    assert (0 ≤ heuristic start cur) by (unfold heuristic; lia).
    unfold GRID_SIZE in *. lia.
Qed.

Lemma in_box_next cur :
  in_box start end_ cur → cur ≠ end_ →
  ∃ d, d ∈ DIRS ∧
    heuristic (cur.1 + d.1 * GRID_SIZE, cur.2 + d.2 * GRID_SIZE) end_
      = heuristic cur end_ - GRID_SIZE.
Proof.
  intros [(i & j & ->) _] Hne. clear box_open.
  destruct end_on_lattice as (ie & je & ->). simpl in *.
  unfold heuristic, GRID_SIZE, DIRS in *. simpl in *.
  destruct (decide (i < ie)); [exists (1, 0)|
    destruct (decide (ie < i)); [exists (-1, 0)|
    destruct (decide (j < je)); [exists (0, 1)|
    destruct (decide (je < j)); [exists (0, -1)|]]]].
  5:{ exfalso. apply Hne. f_equal; lia. }
  all: split; [rewrite !elem_of_cons; auto 6|simpl; lia].
Qed.

Lemma level_mid_relax cur next L st :
  in_box start end_ cur →
  heuristic cur end_ = heuristic start end_ - GRID_SIZE * L →
  orthogonal cur next →
  level_mid start end_ cur L st →
  level_mid start end_ cur L (relax end_ cur next (L + 1) st).
Proof.
  intros Hbox Hh Horth (Hcur & Hopen & Hknown).
  destruct (relax_cases end_ cur next (L + 1) st) as [[-> _]|[-> Hnext]];
    [done|].
  assert (next ≠ cur) as Hnc.
  { intros ->. rewrite Hcur in Hnext.
    destruct Hnext as [|(old & [= <-] & ?)]; [done|lia]. }
  assert (cost_so_far st !! next ≠ Some (L + 1)) as Hnot.
  { intros Heq. rewrite Heq in Hnext.
    destruct Hnext as [|(old & [= <-] & ?)]; [done|lia]. }
  pose proof (heuristic_step cur next (proj1 Hbox) Horth) as Hstep.
  split_and!; simpl.
  - by rewrite lookup_insert_ne.
  - intros e [He| ->%list_elem_of_singleton]%elem_of_app.
    + destruct (Hopen e He) as [Hle Heq]. split; [done|].
      intros Hp. destruct (Heq Hp) as (? & ? & Hc). split_and!; try done.
      rewrite lookup_insert_ne; [done|]. intros ->. done.
    + simpl. unfold GRID_SIZE in *. split; [lia|].
      intros Hp. assert (heuristic next end_ = heuristic cur end_ - 20)
        as Hdown by lia.
      split_and!.
      * by apply (in_box_toward cur next).
      * lia.
      * by rewrite lookup_insert_eq.
  - intros c Hc. destruct (decide (c = next)) as [->|Hne].
    + unfold GRID_SIZE in *. split; [lia|]. intros Heq.
      apply elem_of_app. right. apply list_elem_of_singleton.
      f_equal. lia.
    + rewrite lookup_insert_ne in Hc by done.
      destruct (Hknown c Hc) as [Hle Hin]. split; [done|].
      intros Heq. apply elem_of_app. left. by apply Hin.
Qed.

Lemma level_mid_for_each cur L ds : ∀ st st',
  in_box start end_ cur →
  heuristic cur end_ = heuristic start end_ - GRID_SIZE * L →
  (∀ d, d ∈ ds → d ∈ DIRS) →
  level_mid start end_ cur L st →
  for_each position end_ cur ds st = Ok st' →
  level_mid start end_ cur L st' ∧
  (∀ d, d ∈ ds →
     blocked position (cur.1 + d.1 * GRID_SIZE, cur.2 + d.2 * GRID_SIZE) = false →
     is_Some (cost_so_far st' !! (cur.1 + d.1 * GRID_SIZE, cur.2 + d.2 * GRID_SIZE))) ∧
  (∀ c, is_Some (cost_so_far st !! c) → is_Some (cost_so_far st' !! c)).
Proof.
  induction ds as [|d ds IH]; intros st st' Hbox Hh Hds Hmid; simpl.
  - intros [= <-]. split_and!; [done| |done]. by intros d ?%elem_of_nil.
  - unfold visit.
    destruct (blocked position _) eqn:Hb; simpl.
    + intros Hrest. destruct (IH st st') as (? & Hk & ?); auto.
      { intros d' Hd'. by apply Hds, list_elem_of_further. }
      split_and!; [done| |done].
      intros d' [->|Hd']%elem_of_cons Hfree; [congruence|auto].
    + assert (cost_so_far st !! cur = Some L) as Hcur by apply Hmid.
      rewrite Hcur. simpl. intros Hrest.
      assert (∀ d', d' ∈ ds → d' ∈ DIRS) as Hds'.
      { intros d' Hd'. by apply Hds, list_elem_of_further. }
      assert (level_mid start end_ cur L
                (relax end_ cur
                   (cur.1 + d.1 * GRID_SIZE, cur.2 + d.2 * GRID_SIZE)
                   (L + 1) st)) as Hmid1.
      { apply level_mid_relax; try done.
        apply step_orthogonal, Hds, list_elem_of_here. }
      destruct (IH _ st' Hbox Hh Hds' Hmid1 Hrest) as (Hmid' & Hk & Hmono).
      assert (∀ c, is_Some (cost_so_far st !! c) →
                is_Some (cost_so_far
                  (relax end_ cur
                     (cur.1 + d.1 * GRID_SIZE, cur.2 + d.2 * GRID_SIZE)
                     (L + 1) st) !! c)) as Hmono1.
      { intros c Hc.
        destruct (relax_cases end_ cur
                    (cur.1 + d.1 * GRID_SIZE, cur.2 + d.2 * GRID_SIZE)
                    (L + 1) st) as [[-> _]|[-> _]]; [done|].
        simpl. apply lookup_insert_is_Some'. by right. }
      split_and!; [done| |auto].
      intros d' [->|Hd']%elem_of_cons Hfree; [|auto].
      apply Hmono.
      destruct (relax_cases end_ cur
                  (cur.1 + d.1 * GRID_SIZE, cur.2 + d.2 * GRID_SIZE)
                  (L + 1) st) as [[-> (old & -> & _)]|[-> _]]; [by eexists|].
      simpl. rewrite lookup_insert_eq. by eexists.
Qed.

Lemma level_inv_init : level_inv start end_ 0 (astar_init start end_).
Proof.
  unfold level_inv, astar_init, heappush. simpl.
  rewrite !Z.mul_0_r, !Z.sub_0_r. split_and!.
  - exists start. apply list_elem_of_here.
  - intros e ->%list_elem_of_singleton. simpl. split; [done|]. intros _.
    split_and!; [|done|by rewrite lookup_insert_eq].
    split.
    + exists 0, 0. destruct start. simpl. f_equal; lia.
    + unfold heuristic. lia.
  - intros c Hc. destruct (decide (c = start)) as [->|Hne]; [done|].
    rewrite lookup_insert_ne, lookup_empty in Hc by done. by destruct Hc.
Qed.

Lemma level_inv_round L st :
  0 ≤ L →
  level_inv start end_ L st →
  match astar_round position end_ st with
  | Ok Exhausted => False
  | Ok (Reached c st') =>
      c = end_ ∧ cost_so_far st' !! end_ = Some L ∧
      heuristic start end_ = GRID_SIZE * L
  | Ok (Expanded c st') => level_inv start end_ (L + 1) st'
  | Err _ => True
  end.
Proof.
  intros HL ([c0 Hc0] & Hopen & Hknown). unfold astar_round.
  destruct (heappop (open_list st)) as [[[pr cur] rest]|] eqn:Hpop.
  2:{ destruct (open_list st); [by apply elem_of_nil in Hc0|done]. }
  assert ((pr, cur) ∈ open_list st) as Hin.
  { apply (heappop_elem _ _ _ _ Hpop). by left. }
  destruct (Hopen _ Hin) as [Hle Hgood]. simpl in Hle, Hgood.
  assert (pr = heuristic start end_ - (GRID_SIZE - 1) * L) as Hpr.
  { pose proof (heappop_least _ _ _ _ Hpop Hc0) as Hleast.
    unfold entry_lt in Hleast. simpl in Hleast. lia. }
  destruct (Hgood Hpr) as (Hbox & Hh & Hcost).
  destruct (decide (cur = end_)) as [->|Hne].
  { simpl. split; [done|]. split; [done|].
    assert (heuristic end_ end_ = 0) by (unfold heuristic; lia). lia. }
  set (st1 := {| open_list := rest; came_from := came_from st;
                 cost_so_far := cost_so_far st |}).
  assert (level_mid start end_ cur L st1) as Hmid.
  { split_and!; simpl; [done| |].
    - intros e He.
      assert (e ∈ open_list st) as He'.
      { apply (heappop_elem _ _ _ _ Hpop). by right. }
      destruct (Hopen e He') as [? _]. unfold GRID_SIZE in *. split; lia.
    - intros c Hc. pose proof (Hknown c Hc). unfold GRID_SIZE in *.
      split; lia. }
  destruct (for_each position end_ cur DIRS st1) as [st'|] eqn:Hfor;
    simpl; [|done].
  destruct (level_mid_for_each cur L DIRS st1 st' Hbox Hh) as
    ((Hcur' & Hopen' & Hknown') & Hdone & _); auto.
  destruct (in_box_next cur Hbox Hne) as (d & Hd & Hdown).
  destruct (in_box_toward cur (cur.1 + d.1 * GRID_SIZE, cur.2 + d.2 * GRID_SIZE))
    as [Hbox' Hns]; auto using step_orthogonal.
  split_and!.
  - eexists. apply (Hknown' (cur.1 + d.1 * GRID_SIZE, cur.2 + d.2 * GRID_SIZE)).
    + apply Hdone; [done|]. by apply box_open.
    + unfold GRID_SIZE in *. lia.
  - done.
  - intros c Hc. by destruct (Hknown' c Hc).
Qed.

Lemma level_inv_loop fuel : ∀ L st cur st' cur',
  0 ≤ L →
  level_inv start end_ L st →
  astar_loop fuel position end_ st cur = Ok (st', cur') →
  cur' = Some end_ ∧
  ∃ n, cost_so_far st' !! end_ = Some n ∧
       heuristic start end_ = GRID_SIZE * n.
Proof.
  induction fuel as [|fuel IH]; intros L st cur st' cur' HL Hlevel;
    simpl; [done|].
  pose proof (level_inv_round L st HL Hlevel) as Hround.
  destruct (astar_round position end_ st) as [[|c st1|c st1]|]; simpl;
    [done| | |done].
  - intros [= <- <-]. destruct Hround as (-> & Hcost & Hh).
    split; [done|]. by exists L.
  - intros Hloop. apply (IH (L + 1) st1 (Some c) st' cur'); auto. lia.
Qed.

End OpenBox.

(** ** The open box, for the search and for the snake *)

Section OpenBoxPath.

Lemma astar_open_box_route position start end_ :
  on_lattice start end_ →
  (∀ c, in_box start end_ c → c ≠ start → blocked position c = false) →
  ∃ path,
    astar position start end_ = Ok (Some path) ∧
    route position start end_ path ∧
    GRID_SIZE * (Z.of_nat (Datatypes.length path) - 1) = heuristic start end_.
Proof.
  intros Hlat Hbox.
  destruct (astar_final position start end_)
    as (st & cur & Hloop & Hinv & _).
  destruct (level_inv_loop position start end_ Hlat Hbox astar_fuel 0
              (astar_init start end_) None st cur)
    as (-> & n & Hcost & Hh); [lia|by apply (level_inv_init position)|done|].
  unfold astar. rewrite Hloop. simpl.
  destruct (came_from st !! end_) as [prev|] eqn:Hcame.
  2:{ apply (inv_keys _ _ _ Hinv) in Hcame. congruence. }
  simpl.
  destruct (walk_back_route position start st (size (came_from st)) end_ n
              Hinv Hcost) as (appended & Hwalk & Hroute).
  { rewrite (same_keys_size _ (cost_so_far st)) by apply Hinv.
    by destruct (inv_cost _ _ _ Hinv end_ n Hcost). }
  rewrite Hwalk. simpl. eexists. split; [reflexivity|]. split; [done|].
  pose proof (walk_back_length _ _ _ _ _ _ _ Hinv Hcost Hwalk) as Hshort.
  assert (Datatypes.length (rev (appended ++ [start]))
          = S (Datatypes.length appended)) as Hlen.
  { rewrite length_rev, length_app. simpl. lia. }
  destruct Hroute as (Hhead & Hlast & Hlinked & _).
  destruct (rev (appended ++ [start])) as [|a rest]; [done|].
  simpl in Hhead. injection Hhead as ->.
  pose proof (linked_manhattan rest start end_ Hlinked Hlast) as Hlong.
  cbn [Datatypes.length] in *. unfold GRID_SIZE in *. lia.
Qed.

Lemma aligned_on_lattice (a b : cell) :
  aligned a → aligned b → on_lattice a b.
Proof.
  destruct a as [ax ay], b as [bx by_]. unfold aligned, on_lattice, GRID_SIZE.
  simpl. intros [Ha1 Ha2] [Hb1 Hb2].
  pose proof (Z_div_mod_eq_full ax 20). pose proof (Z_div_mod_eq_full ay 20).
  pose proof (Z_div_mod_eq_full bx 20). pose proof (Z_div_mod_eq_full by_ 20).
  exists (bx / 20 - ax / 20), (by_ / 20 - ay / 20). f_equal; lia.
Qed.

Lemma in_box_inside (a b c : cell) :
  outside a = false → outside b = false → in_box a b c → outside c = false.
Proof.
  destruct a as [ax ay], b as [bx by_], c as [cx cy].
  unfold outside, in_box, heuristic, WIDTH, HEIGHT. simpl.
  rewrite !orb_false_iff, !Z.geb_leb, !Z.ltb_ge, !Z.leb_gt. lia.
Qed.

Lemma moves_score n : ∀ s draws s' draws',
  moves n s draws = Ok (s', draws') →
  score s ≤ score s' ≤ score s + Z.of_nat n ∧
  Z.of_nat (Datatypes.length (position s'))
    = Z.of_nat (Datatypes.length (position s)) + (score s' - score s).
Proof.
  induction n as [|n IH]; intros s draws s' draws'.
  - simpl. intros [= <- <-]. lia.
  - cbn [moves]. destruct (move s draws) as [[s1 d1]|] eqn:Hmove; simpl; [|done].
    intros Hrest. destruct (IH _ _ _ _ Hrest) as [Hscore Hlen].
    assert (score s ≤ score s1 ≤ score s + 1 ∧
            Z.of_nat (Datatypes.length (position s1))
              = Z.of_nat (Datatypes.length (position s))
                + (score s1 - score s)) as [? ?]; [|lia].
    destruct (move_cases _ _ _ _ Hmove)
      as (h & _ & [[-> _]|(path & next & dir & _ & _ & Hcase)]); [lia|].
    destruct Hcase as [(_ & nf & _ & ->)|(_ & _ & ->)];
      cbn [position score].
    + cbn [Datatypes.length]. lia.
    + rewrite removelast_cons_length. lia.
Qed.

End OpenBoxPath.

(** * Further properties, stated *)

Section Extras.

(** X1: [astar] finds a route whenever there is one: if any route from
    [start] to [end_] over open cells exists it returns a path, which is
    such a route, and it returns [None] exactly when no route exists. *)
Theorem astar_finds_route position start end_ :
  (∀ path, route position start end_ path →
     ∃ found, astar position start end_ = Ok (Some found) ∧
              route position start end_ found) ∧
  (astar position start end_ = Ok None ↔
   ¬ ∃ path, route position start end_ path).
Proof.
  split.
  - intros path Hroute.
    destruct (astar_outcome position start end_)
      as (st & _ & [[_ Hnone]|(_ & found & Hsome & Hfound & _)]).
    + by destruct (astar_None_no_route _ _ _ path Hnone).
    + by exists found.
  - split.
    + intros Hnone [path Hroute].
      by apply (astar_None_no_route _ _ _ path Hnone).
    + intros Hno.
      destruct (astar_outcome position start end_)
        as (st & _ & [[_ Hnone]|(_ & found & Hsome & Hfound & _)]); [done|].
      exfalso. apply Hno. by exists found.
Qed.

Lemma astar_finds_route_witness :
  let body := [(100, 100); (80, 100)] in
  let path := [(100, 100); (100, 120); (100, 140)] in
  route body (100, 100) (100, 140) path ∧
  ∃ found, astar body (100, 100) (100, 140) = Ok (Some found) ∧
           route body (100, 100) (100, 140) found.
Proof.
  intros body path.
  assert (route body (100, 100) (100, 140) path) as Hroute.
  { split_and!; try done.
    - unfold linked, orthogonal, GRID_SIZE. simpl. lia.
    - intros c Hc. simpl in Hc.
      repeat (apply elem_of_cons in Hc as [->|Hc]; [vm_compute; reflexivity|]).
      by apply elem_of_nil in Hc. }
  split; [exact Hroute|].
  exact (proj1 (astar_finds_route body (100, 100) (100, 140)) path Hroute).
Defined.

(** X2: a path that [astar] returns visits no cell twice, has at least as
    many steps as the Manhattan distance counts grid cells, and has no
    more cells than the grid plus the start. *)
Theorem astar_path_simple position start end_ path :
  astar position start end_ = Ok (Some path) →
  NoDup path ∧
  heuristic start end_ ≤ GRID_SIZE * (Z.of_nat (Datatypes.length path) - 1) ∧
  Z.of_nat (Datatypes.length path) ≤ CELLS + 1.
Proof.
  intros Hastar.
  destruct (astar_Some_walk _ _ _ _ Hastar)
    as (st & v & appended & Hinv & Hcost & Hwalk & ->).
  destruct (walk_back_costs _ _ _ _ _ _ _ Hinv Hcost Hwalk) as [Hnodup Hall].
  assert (NoDup (rev (appended ++ [start]))) as Hsimple.
  { rewrite <- Permutation_rev. apply NoDup_app. split; [done|].
    split; [|apply NoDup_singleton].
    intros x Hx ->%list_elem_of_singleton. by destruct (Hall _ Hx). }
  split; [done|]. split.
  - destruct (astar_outcome position start end_)
      as (st' & _ & [[_ Hnone]|(_ & path' & Hsome & Hroute & _)]);
      [congruence|].
    assert (path' = rev (appended ++ [start])) as -> by congruence.
    destruct Hroute as (Hhead & Hlast & Hlinked & _).
    destruct (rev (appended ++ [start])) as [|a rest]; [done|].
    simpl in Hhead. injection Hhead as ->.
    pose proof (linked_manhattan rest start end_ Hlinked Hlast).
    cbn [Datatypes.length]. lia.
  - pose proof (search_inv_size _ _ _ Hinv) as Hsize.
    assert ((Datatypes.length (rev (appended ++ [start]))
             ≤ Datatypes.length (map_to_list (cost_so_far st)).*1)%nat)
      as Hle.
    { apply submseteq_length, NoDup_submseteq; [done|].
      intros x Hx. apply list_elem_of_In, in_rev, list_elem_of_In in Hx.
      assert (∃ w, cost_so_far st !! x = Some w) as [w Hw].
      { apply elem_of_app in Hx as [Hx| ->%list_elem_of_singleton].
        - destruct (Hall _ Hx) as (_ & w & Hw & _). by exists w.
        - exists 0. apply Hinv. }
      apply list_elem_of_fmap. exists (x, w). split; [done|].
      by apply elem_of_map_to_list. }
    rewrite length_fmap, length_map_to_list in Hle. lia.
Qed.

Lemma astar_path_simple_witness :
  astar [(100, 100)] (100, 100) (100, 160)
    = Ok (Some [(100, 100); (100, 120); (100, 140); (100, 160)]) ∧
  NoDup [(100, 100); (100, 120); (100, 140); (100, 160)].
Proof.
  split; [vm_compute; reflexivity|].
  apply (astar_path_simple [(100, 100)] (100, 100) (100, 160)).
  vm_compute. reflexivity.
Defined.

(** X3: the food that [generate_food] returns is the first cell drawn
    that is not on the snake; it is inside the window and on the grid, the
    cells drawn before it are on the snake, and two random numbers were
    used for every cell drawn. *)
Theorem generate_food_first_free position draws new_food draws' :
  generate_food position draws = Ok (new_food, draws') →
  (new_food ∉ position) ∧ outside new_food = false ∧ aligned new_food ∧
  ∃ k : nat,
    drawn_cells draws !! k = Some new_food ∧
    (∀ (j : nat) c, (j < k)%nat → drawn_cells draws !! j = Some c →
                    c ∈ position) ∧
    draws' = drop (2 * S k) draws.
Proof.
  intros Hfood.
  destruct (generate_food_free _ _ _ _ Hfood) as [Hfree Hin].
  pose proof (generate_food_aligned _ _ _ _ Hfood) as Hal.
  apply generate_food_first in Hfood as (k & Hk & _ & Hbefore & Hrest).
  split_and!; try done. by exists k.
Qed.

Lemma generate_food_first_free_witness :
  generate_food [(100, 100)] [5; 5; 3; 4; 9] = Ok ((60, 80), [9]) ∧
  outside (60, 80) = false.
Proof.
  split; [vm_compute; reflexivity|].
  apply (generate_food_first_free [(100, 100)] [5; 5; 3; 4; 9] (60, 80) [9]).
  vm_compute. reflexivity.
Defined.

(** X4: [generate_food] can return only if some cell of the grid is not on
    the snake: then some random numbers make it return, and when the snake
    covers the grid the loop goes on whatever numbers are drawn. *)
Theorem generate_food_needs_free_cell position :
  ((∃ draws new_food draws',
      generate_food position draws = Ok (new_food, draws')) ↔
   ∃ c, c ∈ lattice_cells (0, 0) ∧ c ∉ position) ∧
  ((∀ c, c ∈ lattice_cells (0, 0) → c ∈ position) →
   ∀ draws, generate_food position draws = Err OutOfDraws).
Proof.
  split; [split|].
  - intros (draws & f & draws' & Hfood).
    apply generate_food_first in Hfood as (k & Hk & Hfree & _).
    exists f. split; [|done].
    apply list_elem_of_lookup_2 in Hk. clear Hfree. revert Hk.
    induction draws as [|r|r1 r2 rest IH] using draws_ind;
      [by intros ?%elem_of_nil|by intros ?%elem_of_nil|].
    rewrite drawn_cells_cons. intros [->|Hk]%elem_of_cons; [|by apply IH].
    apply drawn_cell_grid.
  - intros (c & Hc & Hfree).
    exists [c.1 / GRID_SIZE; c.2 / GRID_SIZE], c, [].
    rewrite generate_food_cons, (grid_cell_drawn c Hc).
    by rewrite bool_decide_eq_true_2.
  - intros Hfull draws. apply generate_food_fails. intros c Hc.
    apply Hfull. revert Hc.
    induction draws as [|r|r1 r2 rest IH] using draws_ind;
      [by intros ?%elem_of_nil|by intros ?%elem_of_nil|].
    rewrite drawn_cells_cons. intros [->|Hk]%elem_of_cons; [|by apply IH].
    apply drawn_cell_grid.
Qed.

Lemma generate_food_needs_free_cell_witness :
  (∀ c, c ∈ lattice_cells (0, 0) → c ∈ lattice_cells (0, 0)) ∧
  generate_food (lattice_cells (0, 0)) [3; 4; 5; 6; 7; 8] = Err OutOfDraws.
Proof.
  split; [done|].
  apply (proj2 (generate_food_needs_free_cell (lattice_cells (0, 0)))).
  done.
Defined.

(** X5: [move] raises no exception on a snake with a segment: it returns,
    or it is still drawing food cells when the random numbers end, which
    happens only when the head got to the food; on an empty segment list
    it raises [IndexError]. *)
Theorem move_never_raises s draws :
  (position s = [] → move s draws = Err IndexError) ∧
  (position s ≠ [] →
   (∃ s' draws', move s draws = Ok (s', draws')) ∨
   (move s draws = Err OutOfDraws ∧ reaches_food s ∧
    generate_food (food s :: position s) draws = Err OutOfDraws)).
Proof.
  split.
  - intros Hpos. unfold move. by rewrite Hpos.
  - intros Hne. destruct (position s) as [|h body] eqn:Hpos; [done|].
    assert (head (position s) = Some h) as Hhead by by rewrite Hpos.
    rewrite <- Hpos.
    destruct (astar_outcome (position s) h (food s))
      as (st & _ & [[_ Hnone]|(_ & path & Hsome & Hroute & _)]).
    { left. exists s, draws. apply (move_noop s draws h); auto. }
    destruct path as [|a [|next rest]] eqn:Hpath.
    + by destruct Hroute.
    + left. exists s, draws. apply (move_noop s draws h); [done|].
      right. eexists. split; [done|]. simpl. lia.
    + destruct (move_step s draws h path next) as [dir Hmove];
        subst path; try done.
      rewrite Hmove. destruct (decide (next = food s)) as [->|]; [|left; eauto].
      destruct (generate_food _ draws) as [[nf d]|e] eqn:Hfood; simpl.
      * left. eauto.
      * right. rewrite (generate_food_errors _ _ _ Hfood) in *.
        split_and!; try done. by exists h, (a :: food s :: rest).
Qed.

Lemma move_never_raises_witness :
  let s := {| position := [(100, 100)]; direction := (1, 0);
              length := 1; food := (100, 120); score := 0 |} in
  position s ≠ [] ∧
  ((∃ s' draws', move s [5; 5] = Ok (s', draws')) ∨
   (move s [5; 5] = Err OutOfDraws ∧ reaches_food s ∧
    generate_food (food s :: position s) [5; 5] = Err OutOfDraws)).
Proof.
  intros s.
  assert (position s ≠ []) as Hne by discriminate.
  split; [exact Hne|].
  exact (proj2 (move_never_raises s [5; 5]) Hne).
Defined.

(** X6: a call of [move] that moves puts the head one grid step from where
    it was, on a cell inside the window that no segment occupied, in the
    direction it stores (one of the four unit vectors); behind the head
    come the old segments, all of them or all but the last. *)
Theorem move_advances_head s draws s' draws' h :
  head (position s) = Some h →
  move s draws = Ok (s', draws') →
  (s' = s ∧ draws' = draws) ∨
  ∃ next,
    head (position s') = Some next ∧
    orthogonal h next ∧ (next ∉ position s) ∧ outside next = false ∧
    direction s' ∈ DIRS ∧
    next = (h.1 + (direction s').1 * GRID_SIZE,
            h.2 + (direction s').2 * GRID_SIZE) ∧
    (position s' = next :: position s ∨
     position s' = next :: removelast (position s)).
Proof.
  intros Hhead Hmove.
  destruct (move_inversion _ _ _ _ Hmove)
    as (h' & Hhead' & [?|(next & dir & Horth & Hfree & Hdir & Hstep & Hcase)]);
    [by left|].
  assert (h' = h) as -> by congruence.
  right. exists next.
  destruct Hcase as [(_ & nf & _ & ->)|(_ & _ & ->)];
    cbn [position direction].
  - split_and!; try done.
    + by apply blocked_false_free.
    + by eapply blocked_false_outside.
    + by left.
  - destruct (position s) as [|a body] eqn:Hpos; [done|].
    rewrite removelast_cons_cons. split_and!; try done.
    + rewrite <- Hpos in Hfree. rewrite <- Hpos.
      by apply blocked_false_free.
    + by eapply blocked_false_outside.
    + by right.
Qed.

Lemma move_advances_head_witness :
  let s := {| position := [(100, 100); (80, 100)]; direction := (1, 0);
              length := 2; food := (100, 160); score := 1 |} in
  let s' := {| position := [(100, 120); (100, 100)]; direction := (0, 1);
               length := 2; food := (100, 160); score := 1 |} in
  move s [] = Ok (s', []) ∧
  ((s' = s ∧ @nil Z = []) ∨
   ∃ next,
     head (position s') = Some next ∧
     orthogonal (100, 100) next ∧ (next ∉ position s) ∧
     outside next = false ∧ direction s' ∈ DIRS ∧
     next = (100 + (direction s').1 * GRID_SIZE,
             100 + (direction s').2 * GRID_SIZE) ∧
     (position s' = next :: position s ∨
      position s' = next :: removelast (position s))).
Proof.
  intros s s'.
  assert (move s [] = Ok (s', [])) as Hmove by (vm_compute; reflexivity).
  split; [exact Hmove|].
  exact (move_advances_head s [] s' [] (100, 100) eq_refl Hmove).
Defined.

(** X7: in every state of a session the snake is a chain that does not
    cross itself: no cell holds two segments, neighbouring segments are
    one grid step apart, and every segment is inside the window and on
    the grid. *)
Theorem session_body_chain s :
  reachable s →
  NoDup (position s) ∧ linked (position s) ∧
  ∀ c, c ∈ position s → outside c = false ∧ aligned c.
Proof.
  intros Hreach. destruct (session_inv_reachable s Hreach). done.
Qed.

Lemma session_body_chain_witness :
  let s := {| position := [(100, 100); (80, 100); (60, 100); (40, 100);
                           (40, 80)];
              direction := (1, 0); length := 5; food := (20, 100);
              score := 4 |} in
  reachable s ∧ NoDup (position s).
Proof.
  intros s.
  assert (reachable s) as Hreach.
  { apply (reachable_play [0; 0; 0; 2; 2; 4; 5; 5; 1; 5] 22 s []).
    vm_compute. reflexivity. }
  split; [exact Hreach|]. exact (proj1 (session_body_chain s Hreach)).
Defined.

(** X8: in every state of a session the food is on a cell of the grid
    inside the window that no segment of the snake occupies. *)
Theorem session_food_free s :
  reachable s →
  (food s ∉ position s) ∧ outside (food s) = false ∧ aligned (food s).
Proof.
  intros Hreach. destruct (session_inv_reachable s Hreach). done.
Qed.

Lemma session_food_free_witness :
  let s := {| position := [(100, 120)]; direction := (0, 1);
              length := 1; food := (100, 160); score := 0 |} in
  reachable s ∧ (food s ∉ position s).
Proof.
  intros s.
  assert (reachable s) as Hreach.
  { apply (reachable_play [5; 8] 1 s []). vm_compute. reflexivity. }
  split; [exact Hreach|]. exact (proj1 (session_food_free s Hreach)).
Defined.

(** X9: in every state of a session the [length] attribute and the number
    of segments are both the score plus one, and the score is not
    negative. *)
Theorem session_score_length s :
  reachable s →
  length s = score s + 1 ∧
  Z.of_nat (Datatypes.length (position s)) = score s + 1 ∧
  0 ≤ score s.
Proof.
  intros Hreach. destruct (session_inv_reachable s Hreach) as [_ _ _ _ [? ?] ? _].
  done.
Qed.

Lemma session_score_length_witness :
  let s := {| position := [(100, 120); (100, 100)]; direction := (0, 1);
              length := 2; food := (60, 80); score := 1 |} in
  reachable s ∧ length s = score s + 1.
Proof.
  intros s.
  assert (reachable s) as Hreach.
  { apply (reachable_play [5; 6; 3; 4] 1 s []). vm_compute. reflexivity. }
  split; [exact Hreach|]. exact (proj1 (session_score_length s Hreach)).
Defined.

(** X10: in no state of a session does [check_collision] report a
    collision: the head is never outside the window and never on another
    segment, so the loop of [main] never ends through it. *)
Theorem never_collides s :
  reachable s → check_collision s = Ok false.
Proof.
  intros Hreach. by apply check_collision_session, session_inv_reachable.
Qed.

Lemma never_collides_witness :
  let s := {| position := [(100, 100); (80, 100); (60, 100); (40, 100);
                           (40, 80)];
              direction := (1, 0); length := 5; food := (20, 100);
              score := 4 |} in
  reachable s ∧ check_collision s = Ok false.
Proof.
  intros s.
  assert (reachable s) as Hreach.
  { apply (reachable_play [0; 0; 0; 2; 2; 4; 5; 5; 1; 5] 22 s []).
    vm_compute. reflexivity. }
  split; [exact Hreach|]. exact (never_collides s Hreach).
Defined.

(** X11: in every state of a session [draw] paints one square of
    [GRID_SIZE] for each segment, green, and then one for the food, red;
    every square is inside the window and no two of them overlap. *)
Theorem draw_squares_apart s :
  reachable s →
  Datatypes.length (draw s) = S (Datatypes.length (position s)) ∧
  (∀ (i : nat) r, draw s !! i = Some r →
     rect_w r = GRID_SIZE ∧ rect_h r = GRID_SIZE ∧ on_screen r ∧
     rect_color r = if decide (i < Datatypes.length (position s))%nat
                    then GREEN else RED) ∧
  (∀ (i j : nat) a b,
     i ≠ j → draw s !! i = Some a → draw s !! j = Some b → ¬ overlap a b).
Proof.
  intros Hreach.
  destruct (session_cells s (session_inv_reachable s Hreach))
    as [Hnodup Hcells].
  split; [apply draw_length|]. split.
  - intros i r Hr.
    destruct (draw_lookup _ _ _ Hr) as (c & Hc & Hx & Hy & Hw & Hh & Hcol).
    destruct (Hcells c) as [Hin Hal]; [by eapply list_elem_of_lookup_2|].
    pose proof (aligned_inside_on_screen c Hin Hal).
    unfold on_screen. rewrite Hx, Hy, Hw, Hh. done.
  - intros i j a b Hij Ha Hb Hover.
    destruct (draw_lookup _ _ _ Ha) as (ca & Hca & Hax & Hay & Haw & Hah & _).
    destruct (draw_lookup _ _ _ Hb) as (cb & Hcb & Hbx & Hby & Hbw & Hbh & _).
    destruct (Hcells ca) as [_ Hala]; [by eapply list_elem_of_lookup_2|].
    destruct (Hcells cb) as [_ Halb]; [by eapply list_elem_of_lookup_2|].
    apply (aligned_cells_apart ca cb Hala Halb).
    + intros ->. apply Hij. by eapply NoDup_lookup.
    + unfold overlap in Hover.
      rewrite Hax, Hay, Haw, Hah, Hbx, Hby, Hbw, Hbh in Hover. done.
Qed.

Lemma draw_squares_apart_witness :
  let s := {| position := [(100, 120); (100, 100)]; direction := (0, 1);
              length := 2; food := (60, 80); score := 1 |} in
  reachable s ∧ Datatypes.length (draw s) = 3%nat.
Proof.
  intros s.
  assert (reachable s) as Hreach.
  { apply (reachable_play [5; 6; 3; 4] 1 s []). vm_compute. reflexivity. }
  split; [exact Hreach|]. exact (proj1 (draw_squares_apart s Hreach)).
Defined.

(** X12: the loop of [main] ends only on a QUIT event.  When [main] has
    ended ([game_over] is true) the last events polled held a QUIT and
    none before did; while no QUIT has come every list of events got its
    pass.  Each pass makes one call of [move] and shows one frame, so the
    final snake is the one that many calls of [move] make from the
    initial state. *)
Theorem main_ends_on_quit inputs draws frames final over :
  main inputs draws = Ok (frames, final, over) →
  reachable final ∧
  (∃ s0 draws0 draws',
     init draws = Ok (s0, draws0) ∧
     moves (Datatypes.length frames) s0 draws0 = Ok (final, draws')) ∧
  (if over
   then ∃ pre events post,
          inputs = pre ++ events :: post ∧ QUIT ∈ events ∧
          Forall (λ ev, QUIT ∉ ev) pre ∧
          Datatypes.length frames = S (Datatypes.length pre)
   else Forall (λ ev, QUIT ∉ ev) inputs ∧
        Datatypes.length frames = Datatypes.length inputs).
Proof.
  unfold main.
  destruct (init draws) as [[s0 d0]|] eqn:Hinit; simpl; [|done].
  intros Hloop.
  assert (reachable s0) as Hreach by by eapply reachable_init.
  destruct (main_loop_spec _ _ _ _ _ _ Hreach Hloop) as (Hfin & [d' Hm] & Hover).
  split; [done|]. split; [|done]. by exists s0, d0, d'.
Qed.

Lemma main_ends_on_quit_witness :
  ∃ frames final,
    main [[OTHER]; []; [OTHER; QUIT]; [OTHER]] [5; 8; 3; 4]
      = Ok (frames, final, true) ∧
    Datatypes.length frames = 3%nat ∧ reachable final.
Proof.
  assert (∃ frames final,
    main [[OTHER]; []; [OTHER; QUIT]; [OTHER]] [5; 8; 3; 4]
      = Ok (frames, final, true) ∧
    Datatypes.length frames = 3%nat) as (frames & final & Hmain & Hlen).
  { eexists _, _. split; vm_compute; reflexivity. }
  exists frames, final. split; [exact Hmain|]. split; [exact Hlen|].
  exact (proj1 (main_ends_on_quit _ _ _ _ _ Hmain)).
Defined.

(** X13: with nothing in the way the path is a shortest one.  When the
    end cell is a whole number of grid steps from the start and every
    cell between the two (the start apart) is inside the window and off
    the snake, [astar] returns a path, and the path has exactly as many
    steps as the Manhattan distance counts grid cells. *)
Theorem astar_open_box_shortest position start end_ :
  on_lattice start end_ →
  (∀ c, in_box start end_ c → c ≠ start → blocked position c = false) →
  ∃ path,
    astar position start end_ = Ok (Some path) ∧
    GRID_SIZE * (Z.of_nat (Datatypes.length path) - 1) = heuristic start end_.
Proof.
  intros Hlat Hbox.
  destruct (astar_open_box_route position start end_ Hlat Hbox)
    as (path & Hastar & _ & Hlen).
  by exists path.
Qed.

Lemma astar_open_box_shortest_witness :
  ∃ path,
    astar [(100, 100); (80, 100)] (100, 100) (140, 60) = Ok (Some path) ∧
    GRID_SIZE * (Z.of_nat (Datatypes.length path) - 1)
      = heuristic (100, 100) (140, 60).
Proof.
  apply (astar_open_box_shortest [(100, 100); (80, 100)] (100, 100) (140, 60)).
  - exists 2, (-2). reflexivity.
  - intros c [(i & j & ->) Hsum] Hne.
    unfold heuristic, GRID_SIZE in *. simpl in *.
    assert (0 ≤ i ≤ 2 ∧ -2 ≤ j ≤ 0) as [Hi Hj] by lia.
    unfold blocked, outside, WIDTH, HEIGHT. simpl.
    rewrite !orb_false_iff, !Z.geb_leb, !Z.ltb_ge, !Z.leb_gt.
    split; [lia|]. apply bool_decide_eq_false.
    rewrite !elem_of_cons, elem_of_nil.
    intros [Heq|[Heq|[]]]; [done|]. injection Heq as ? ?. lia.
Defined.

(** X14: with no segment between the head and the food, a call of [move]
    brings the head one grid step closer to the food: in a state of a
    session where the head is the only segment among the cells between
    head and food, the new head is at Manhattan distance [GRID_SIZE] less
    from the food. *)
Theorem move_gets_closer s draws s' draws' h :
  reachable s → head (position s) = Some h →
  (∀ c, in_box h (food s) c → c ∈ position s → c = h) →
  move s draws = Ok (s', draws') →
  ∃ next,
    head (position s') = Some next ∧
    heuristic next (food s) = heuristic h (food s) - GRID_SIZE.
Proof.
  intros Hreach Hhead Hbox Hmove.
  destruct (session_inv_reachable s Hreach)
    as [_ _ Hinside (Hfood & Hfin & Hfal) _ _ _].
  assert (h ∈ position s) as Hh.
  { destruct (position s); [done|]. simpl in Hhead. injection Hhead as ->.
    apply list_elem_of_here. }
  destruct (Hinside h Hh) as [Hhin Hhal].
  destruct (astar_open_box_route (position s) h (food s))
    as (path & Hastar & (Hp0 & Hlast & Hlinked & _) & Hlen).
  { by apply aligned_on_lattice. }
  { intros c Hc Hne. unfold blocked.
    rewrite (in_box_inside h (food s) c) by done. simpl.
    apply bool_decide_eq_false. intros Hin. by apply Hne, Hbox. }
  assert (h ≠ food s) as Hhf by (intros ->; done).
  destruct path as [|a [|next rest]]; [done| |].
  { simpl in Hp0, Hlast. congruence. }
  simpl in Hp0. injection Hp0 as ->.
  destruct Hlinked as [Horth Hlinked]. rewrite last_cons_cons in Hlast.
  pose proof (linked_manhattan rest next (food s) Hlinked Hlast) as Hrest.
  pose proof (heuristic_triangle h next (food s)) as Htri.
  pose proof (heuristic_orthogonal h next Horth) as Hone.
  cbn [Datatypes.length] in Hlen.
  destruct (move_step s draws h (h :: next :: rest) next Hhead Hastar eq_refl)
    as [dir Hstep].
  rewrite Hstep in Hmove. exists next. split.
  - destruct (decide (next = food s)).
    + destruct (generate_food _ draws) as [[nf d]|]; simpl in Hmove; [|done].
      by injection Hmove as <- <-.
    + injection Hmove as <- <-. cbn [position].
      destruct (position s); done.
  - unfold GRID_SIZE in *. lia.
Qed.

Lemma move_gets_closer_witness :
  let s := {| position := [(100, 120)]; direction := (0, 1);
              length := 1; food := (100, 160); score := 0 |} in
  let s' := {| position := [(100, 140)]; direction := (0, 1);
               length := 1; food := (100, 160); score := 0 |} in
  reachable s ∧ move s [] = Ok (s', []) ∧
  ∃ next, head (position s') = Some next ∧
          heuristic next (food s) = heuristic (100, 120) (food s) - GRID_SIZE.
Proof.
  intros s s'.
  assert (reachable s) as Hreach.
  { apply (reachable_play [5; 8] 1 s []). vm_compute. reflexivity. }
  assert (move s [] = Ok (s', [])) as Hmove by (vm_compute; reflexivity).
  split; [exact Hreach|]. split; [exact Hmove|].
  apply (move_gets_closer s [] s' [] (100, 120) Hreach eq_refl); [|exact Hmove].
  intros c _ Hc. simpl in Hc. by apply list_elem_of_singleton in Hc.
Defined.

(** X15: over [n] calls of [move] in a row the score never falls and
    rises by at most [n], and the snake gains exactly as many segments as
    the score gains points. *)
Theorem moves_score_bounds n s draws s' draws' :
  moves n s draws = Ok (s', draws') →
  score s ≤ score s' ≤ score s + Z.of_nat n ∧
  Z.of_nat (Datatypes.length (position s'))
    = Z.of_nat (Datatypes.length (position s)) + (score s' - score s).
Proof. apply moves_score. Qed.

Lemma moves_score_bounds_witness :
  let s := {| position := [(100, 100)]; direction := (1, 0);
              length := 1; food := (100, 140); score := 0 |} in
  let s' := {| position := [(100, 160); (100, 140)]; direction := (0, 1);
               length := 2; food := (100, 200); score := 1 |} in
  moves 3 s [5; 10] = Ok (s', []) ∧ score s ≤ score s' ≤ score s + 3.
Proof.
  intros s s'.
  assert (moves 3 s [5; 10] = Ok (s', [])) as Hmoves
    by (vm_compute; reflexivity).
  split; [exact Hmoves|].
  exact (proj1 (moves_score_bounds 3 s [5; 10] s' [] Hmoves)).
Defined.

End Extras.
